(** * kvmd web UI: the mouse module (kvmd/web/js/mouse.js)

    A shallow embedding of [Mouse()]: the closure variables [__ws],
    [__current_pos], [__sent_pos] and [__stream_hovered] become one record,
    every handler becomes a function from that record to its successor and
    the ordered list of effects the handler performs (WebSocket sends and
    DOM calls).  JavaScript numbers are modelled as IEEE 754 binary64
    values, because [__translate] divides, multiplies, adds and rounds in
    that arithmetic. *)

From Stdlib Require Import ZArith QArith Qround Bool List String Lia.
From Stdlib Require Floats.
From Stdlib Require Qcanon.
Import ListNotations.

Local Open Scope Z_scope.

(** ** JavaScript numbers *)

Module JS.

(** A Number is NaN, an infinity or a finite value.  A finite value is kept
    as the rational it denotes.  The two zeros of binary64 are identified:
    [!==], [JSON.stringify] and every operation of mouse.js on a zero
    treat [-0] as [+0] (the only divisor the module ever builds is
    [clientWidth - 0], which is never [-0]). *)
Inductive number : Type :=
  | NaN
  | Infinity (negative : bool)
  | Fin (q : Q).

Definition of_Z (z : Z) : number := Fin (inject_Z z).

(** Rounding of the non-negative rational [n / d] to the nearest integer,
    ties to the even one. *)
Definition round_half_even (n d : Z) : Z :=
  let f := n / d in
  match 2 * (n mod d) ?= d with
  | Lt => f
  | Gt => f + 1
  | Eq => if Z.even f then f else f + 1
  end.

(** [ilog2 n d] is the binary exponent of [n / d] for [n >= d > 0]; below
    that it is only used through [shift], which is then [0]. *)
Definition ilog2 (n d : Z) : Z :=
  let k := Z.log2 n - Z.log2 d in
  if d * 2 ^ k <=? n then k else k - 1.

(** Finite binary64 values are the multiples [M * 2^-1074] that have at most
    53 significant bits and stay below [2^1024]. *)
Definition quantum : Z := 2 ^ 1074.
Definition overflow : Z := 2 ^ 2098.

(** Number of low bits of [n / d] (counted in units of [2^-1074]) that do
    not fit a 53-bit significand. *)
Definition shift (n d : Z) : Z := Z.max 0 (ilog2 n d - 52).

(** Round-to-nearest-even of [n / d > 0] onto the 53-bit grid. *)
Definition fl_pos (n d : Z) : Z :=
  let s := shift n d in round_half_even n (d * 2 ^ s) * 2 ^ s.

(** [fl q]: the binary64 value an arithmetic operation returns when its
    exact result is [q] (round to nearest, ties to even; overflow gives an
    infinity, underflow gives a subnormal or zero). *)
Definition fl (q : Q) : number :=
  let r := Qred q in
  let n := Qnum r in
  if n =? 0 then Fin 0
  else
    let M := fl_pos (Z.abs n * quantum) (Zpos (Qden r)) in
    if overflow <=? M then Infinity (n <? 0)
    else Fin (Qred (Qmake (Z.sgn n * M) (Z.to_pos quantum))).

Definition Qneg (q : Q) : bool := Qnum q <? 0.
Definition Qzero (q : Q) : bool := Qnum q =? 0.

(** [a + b] *)
Definition add (a b : number) : number :=
  match a, b with
  | NaN, _ | _, NaN => NaN
  | Infinity s, Infinity t => if Bool.eqb s t then Infinity s else NaN
  | Infinity s, Fin _ => Infinity s
  | Fin _, Infinity t => Infinity t
  | Fin p, Fin q => fl (p + q)
  end.

Definition neg (a : number) : number :=
  match a with
  | NaN => NaN
  | Infinity s => Infinity (negb s)
  | Fin q => Fin (- q)
  end.

(** [a - b] *)
Definition sub (a b : number) : number := add a (neg b).

(** [a * b] *)
Definition mul (a b : number) : number :=
  match a, b with
  | NaN, _ | _, NaN => NaN
  | Infinity s, Infinity t => Infinity (xorb s t)
  | Infinity s, Fin q | Fin q, Infinity s =>
      if Qzero q then NaN else Infinity (xorb s (Qneg q))
  | Fin p, Fin q => fl (p * q)
  end.

(** [a / b]; a zero divisor is [+0]. *)
Definition div (a b : number) : number :=
  match a, b with
  | NaN, _ | _, NaN => NaN
  | Infinity _, Infinity _ => NaN
  | Infinity s, Fin q => Infinity (xorb s (Qneg q))
  | Fin _, Infinity _ => Fin 0
  | Fin p, Fin q =>
      if Qzero q then (if Qzero p then NaN else Infinity (Qneg p))
      else fl (p / q)
  end.

(** [Math.round]: the nearest integer, ties towards +Infinity. *)
Definition Math_round (a : number) : number :=
  match a with
  | Fin q => of_Z (Qfloor (q + (1 # 2)))
  | _ => a
  end.

(** [a !== b] on numbers. *)
Definition strict_ne (a b : number) : bool :=
  match a, b with
  | NaN, _ | _, NaN => true
  | Infinity s, Infinity t => negb (Bool.eqb s t)
  | Fin p, Fin q => negb (Qeq_bool p q)
  | _, _ => true
  end.

(** The order of the extended line, undefined on NaN. *)
Definition le (a b : number) : Prop :=
  match a, b with
  | NaN, _ | _, NaN => False
  | Infinity true, _ => True
  | _, Infinity false => True
  | Fin p, Fin q => (p <= q)%Q
  | _, _ => False
  end.

Definition is_finite (a : number) : bool :=
  match a with Fin _ => true | _ => false end.

(** The same value as a primitive binary64 float of the kernel, used to
    compare [fl] with the hardware arithmetic on samples.  The numerator is
    split into an odd part, which fits 63 bits for every value [fl]
    returns, and a power of two. *)
Definition to_float (a : number) : PrimFloat.float :=
  match a with
  | NaN => PrimFloat.nan
  | Infinity s => if s then PrimFloat.neg_infinity else PrimFloat.infinity
  | Fin (Qmake n d) =>
      let k := Z.log2 (Z.land (Z.abs n) (- Z.abs n)) in
      let f := PrimFloat.of_uint63 (Uint63.of_Z (Z.shiftr (Z.abs n) k)) in
      FloatOps.Z.ldexp (if n <? 0 then PrimFloat.opp f else f)
                       (k - Z.log2 (Zpos d))
  end.

(** An integer as a primitive float (exact below [2^53]). *)
Definition float_of_Z (z : Z) : PrimFloat.float :=
  let f := PrimFloat.of_uint63 (Uint63.of_Z (Z.abs z)) in
  if z <? 0 then PrimFloat.opp f else f.

End JS.

Import JS.

Local Open Scope string_scope.
Local Open Scope list_scope.
Local Open Scope Z_scope.

(** ** The DOM as the handlers see it *)

(** A WebSocket handle, as passed to [setSocket]; [null] is [None]. *)
Inductive WebSocket : Type := socket (id : nat).

(** A [{x: ..., y: ...}] object. *)
Record Point : Type := mkPoint { x : number; y : number }.

(** [getBoundingClientRect()]: only [left] and [top] are read.  DOM
    coordinates are finite doubles, hence rationals. *)
Record DOMRect : Type := { left : Q; top : Q }.

(** The element [$("stream-image")]: [clientWidth] and [clientHeight] are
    DOM longs, read again at every flush. *)
Record StreamImage : Type := { clientWidth : Z; clientHeight : Z }.

(** A mouse event: [event.button], [event.clientX], [event.clientY] and
    [event.target.getBoundingClientRect()]. *)
Record MouseEvent : Type :=
  { button : Z; clientX : Q; clientY : Q; target_rect : DOMRect }.

(** A contact point of a touch event. *)
Record Touch : Type :=
  { touch_clientX : Q; touch_clientY : Q; touch_target_rect : DOMRect }.

Record TouchEvent : Type := { touches : list Touch }.

(** A wheel event; [has_preventDefault] is the truthiness of
    [event.preventDefault]. *)
Record WheelEvent : Type :=
  { deltaX : Q; deltaY : Q; has_preventDefault : bool }.

(** The object handed to [JSON.stringify] before [__ws.send]. *)
Inductive message : Type :=
  | mouse_move (to : Point)
  | mouse_button (name : string) (state : bool)
  | mouse_wheel (delta : Point).

(** What a handler does to the outside, in program order.  The
    [tools.debug] log lines are left out. *)
Inductive effect : Type :=
  | ws_send (ws : WebSocket) (payload : message)
  | preventDefault
  | stopPropagation
  | led (className title : string)
  | classList_add (name : string)
  | classList_remove (name : string).

(** ** The closure state of [Mouse()] *)

Record Mouse : Type := mkMouse
  { __ws : option WebSocket;
    __current_pos : Point;
    __sent_pos : Point;
    __stream_hovered : bool }.

Definition set_ws (ws : option WebSocket) (st : Mouse) : Mouse :=
  mkMouse ws (__current_pos st) (__sent_pos st) (__stream_hovered st).
Definition set_current_pos (p : Point) (st : Mouse) : Mouse :=
  mkMouse (__ws st) p (__sent_pos st) (__stream_hovered st).
Definition set_sent_pos (p : Point) (st : Mouse) : Mouse :=
  mkMouse (__ws st) (__current_pos st) p (__stream_hovered st).
Definition set_stream_hovered (h : bool) (st : Mouse) : Mouse :=
  mkMouse (__ws st) (__current_pos st) (__sent_pos st) h.

(** The state the constructor leaves behind (lines 6-11); [__init__] also
    titles the LED "Mouse free" and registers the callbacks. *)
Definition Mouse_init : Mouse :=
  mkMouse None (mkPoint (of_Z 0) (of_Z 0)) (mkPoint (of_Z 0) (of_Z 0)) false.

(** [if (__ws) { __ws.send(JSON.stringify(m)); }] *)
Definition send (ws : option WebSocket) (m : message) : list effect :=
  match ws with
  | Some s => [ws_send s m]
  | None => []
  end.

(** ** The handlers *)

(** Lines 131-133. *)
Definition __translate (v a b c d : number) : number :=
  Math_round (add (mul (div (sub v a) (sub b a)) (sub d c)) c).

(** The two calls of lines 117-118, per axis. *)
Definition normalize (value : number) (viewportExtent : Z) : number :=
  __translate value (of_Z 0) (of_Z viewportExtent) (of_Z (-32768)) (of_Z 32767).

(** [pos.x !== __sent_pos.x || pos.y !== __sent_pos.y] *)
Definition moved (pos sent : Point) : bool :=
  strict_ne (x pos) (x sent) || strict_ne (y pos) (y sent).

(** Lines 112-129. *)
Definition __sendMove (img : StreamImage) (st : Mouse) : Mouse * list effect :=
  let pos := __current_pos st in
  if moved pos (__sent_pos st) then
    let to := {| x := normalize (x pos) (clientWidth img);
                 y := normalize (y pos) (clientHeight img) |} in
    (set_sent_pos pos st, send (__ws st) (mouse_move to))
  else (st, []).

(** [{x: Math.round(cx - rect.left), y: Math.round(cy - rect.top)}] *)
Definition offset (cx cy : Q) (rect : DOMRect) : Point :=
  {| x := Math_round (sub (Fin cx) (Fin (left rect)));
     y := Math_round (sub (Fin cy) (Fin (top rect))) |}.

(** Lines 104-110. *)
Definition __moveHandler (event : MouseEvent) (st : Mouse) : Mouse :=
  set_current_pos
    (offset (clientX event) (clientY event) (target_rect event)) st.

(** The [switch] of lines 85-89. *)
Definition button_name (code : Z) : option string :=
  match code with
  | 0 => Some "left"
  | 2 => Some "right"
  | _ => None
  end.

(** Lines 83-102. *)
Definition __buttonHandler (img : StreamImage) (event : MouseEvent)
    (state : bool) (st : Mouse) : Mouse * list effect :=
  match button_name (button event) with
  | Some name =>
      let (st1, tr) := __sendMove img st in
      (st1, preventDefault :: tr ++ send (__ws st1) (mouse_button name state))
  | None => (st, [])
  end.

(** Lines 61-81.  [event.touches[0]] of an empty list is [undefined], and
    reading [.target] of it throws: [None]. *)
Definition __touchHandler (img : StreamImage) (event : TouchEvent)
    (state : bool) (st : Mouse) : option (Mouse * list effect) :=
  let flushed :=
    if state then
      match touches event with
      | t :: _ =>
          let p := offset (touch_clientX t) (touch_clientY t)
                          (touch_target_rect t) in
          Some (__sendMove img (set_current_pos p st))
      | [] => None
      end
    else Some (st, [])
  in
  match flushed with
  | Some (st1, tr) =>
      Some (st1, tr ++ send (__ws st1) (mouse_button "left" state)
                    ++ [stopPropagation; preventDefault])
  | None => None
  end.

(** Lines 135-148. *)
Definition __wheelHandler (event : WheelEvent) (st : Mouse)
    : Mouse * list effect :=
  let delta := {| x := Fin (deltaX event); y := Fin (deltaY event) |} in
  (st, (if has_preventDefault event then [preventDefault] else [])
       ++ send (__ws st) (mouse_wheel delta)).

(** Lines 41-49. *)
Definition updateLeds (st : Mouse) : list effect :=
  match __ws st with
  | Some _ =>
      if __stream_hovered st then [led "led-on" "Mouse tracked"]
      else [led "led-off" "Mouse free"]
  | None => [led "led-off" "Mouse free"]
  end.

(** Lines 51-59. *)
Definition __hoverStream (st : Mouse) : Mouse * list effect :=
  let st1 := set_stream_hovered true st in (st1, updateLeds st1).
Definition __leaveStream (st : Mouse) : Mouse * list effect :=
  let st1 := set_stream_hovered false st in (st1, updateLeds st1).

(** Lines 32-39. *)
Definition setSocket (ws : option WebSocket) (st : Mouse)
    : Mouse * list effect :=
  (set_ws ws st,
   match ws with
   | Some _ => [classList_add "stream-box-mouse-enabled"]
   | None => [classList_remove "stream-box-mouse-enabled"]
   end).

(** ** The event loop *)

(** What can happen to a [Mouse]: the callbacks [__init__] registers
    (lines 16-27, [tick] being the 100 ms interval) and the two public
    methods. *)
Inductive event : Type :=
  | onmouseenter
  | onmouseleave
  | onmousedown (e : MouseEvent)
  | onmouseup (e : MouseEvent)
  | oncontextmenu
  | onmousemove (e : MouseEvent)
  | onwheel (e : WheelEvent)
  | ontouchstart (e : TouchEvent)
  | ontouchend (e : TouchEvent)
  | tick
  | call_setSocket (ws : option WebSocket)
  | call_updateLeds.

Definition dispatch (img : StreamImage) (ev : event) (st : Mouse)
    : option (Mouse * list effect) :=
  match ev with
  | onmouseenter => Some (__hoverStream st)
  | onmouseleave => Some (__leaveStream st)
  | onmousedown e => Some (__buttonHandler img e true st)
  | onmouseup e => Some (__buttonHandler img e false st)
  | oncontextmenu => Some (st, [preventDefault])
  | onmousemove e => Some (__moveHandler e st, [])
  | onwheel e => Some (__wheelHandler e st)
  | ontouchstart e => __touchHandler img e true st
  | ontouchend e => __touchHandler img e false st
  | tick => Some (__sendMove img st)
  | call_setSocket ws => Some (setSocket ws st)
  | call_updateLeds => Some (st, updateLeds st)
  end.

(** A run of the single-threaded event loop; every event comes with the
    size the stream image has when it is handled.  An uncaught exception
    in a handler ends only that handler: the loop goes on with the state
    as it was. *)
Fixpoint run (evs : list (StreamImage * event)) (st : Mouse)
    : Mouse * list effect :=
  match evs with
  | [] => (st, [])
  | (img, ev) :: rest =>
      match dispatch img ev st with
      | Some (st1, tr) => let (st2, tr') := run rest st1 in (st2, tr ++ tr')
      | None => run rest st
      end
  end.

(** The payloads that went to the socket, in order. *)
Fixpoint sent (tr : list effect) : list message :=
  match tr with
  | [] => []
  | ws_send _ m :: rest => m :: sent rest
  | _ :: rest => sent rest
  end.

Definition is_move (m : message) : bool :=
  match m with mouse_move _ => true | _ => false end.

(** The [mouse_move] payloads of a trace. *)
Definition moves (tr : list effect) : list message :=
  filter is_move (sent tr).

(** A coordinate as the handlers store it: the result of [Math.round] on a
    number that is not NaN. *)
Definition pixel (v : number) : bool :=
  match v with
  | NaN => false
  | Infinity _ => true
  | Fin q => Pos.eqb (Qden q) 1
  end.

Definition pixels (p : Point) : bool := pixel (x p) && pixel (y p).

(** Both positions of the state hold such coordinates. *)
Definition settled (st : Mouse) : bool :=
  pixels (__current_pos st) && pixels (__sent_pos st).

(** [Number.MAX_SAFE_INTEGER] *)
Definition MAX_SAFE_INTEGER : Z := 2 ^ 53 - 1.

(** The point of integer pixel coordinates [(px, py)]. *)
Definition at_pixel (px py : Z) : Point := mkPoint (of_Z px) (of_Z py).

(** The specification of [normalize] in the words of the design notes:
    [round((value - 0) / (viewportExtent - 0) * (32767 - (-32768)) + (-32768))],
    in the arithmetic of the implementation language. *)
Definition normalize_spec (value viewportExtent : number) : number :=
  Math_round
    (add (mul (div (sub value (of_Z 0)) (sub viewportExtent (of_Z 0)))
              (sub (of_Z 32767) (of_Z (-32768))))
         (of_Z (-32768))).

(** A value of the 16-bit signed range. *)
Definition int16 (v : number) : bool :=
  match v with
  | Fin q => Pos.eqb (Qden q) 1 && (-32768 <=? Qnum q) && (Qnum q <=? 32767)
  | _ => false
  end.

(** What reaches the peer of [ws] when the payloads [ms] are sent in turn. *)
Definition deliver (ws : option WebSocket) (ms : list message)
    : list message :=
  match ws with
  | Some _ => ms
  | None => []
  end.

(** The normalized position of a pixel position on a stream image. *)
Definition normalized (img : StreamImage) (p : Point) : Point :=
  {| x := normalize (x p) (clientWidth img);
     y := normalize (y p) (clientHeight img) |}.

(** The position an event writes to [__current_pos], if it writes one. *)
Definition pointer_of (ev : event) : option Point :=
  match ev with
  | onmousemove e => Some (offset (clientX e) (clientY e) (target_rect e))
  | ontouchstart e =>
      match touches e with
      | t :: _ =>
          Some (offset (touch_clientX t) (touch_clientY t)
                       (touch_target_rect t))
      | [] => None
      end
  | _ => None
  end.

(** The event leaves the pointer at [p]. *)
Definition stays (p : Point) (ev : event) : Prop :=
  match pointer_of ev with
  | Some p' => p' = p
  | None => True
  end.

(** ** Comparison with the kernel's binary64 arithmetic *)

(** [(p / e) * 65535 + (-32768)], the argument of [Math.round] in
    [__translate], computed in the model and by the primitive floats. *)
Definition scaled_agrees (p e : Z) : bool :=
  PrimFloat.eqb
    (to_float (add (mul (div (of_Z p) (of_Z e)) (of_Z 65535)) (of_Z (-32768))))
    (PrimFloat.add
       (PrimFloat.mul (PrimFloat.div (float_of_Z p) (float_of_Z e))
                      (float_of_Z 65535))
       (float_of_Z (-32768))).

Definition all_pairs (f : Z -> Z -> bool) (ps es : list Z) : bool :=
  forallb (fun e => forallb (fun p => f p e) ps) es.

(** ** Scenarios and properties of traces *)

Definition stream_800_600 : StreamImage :=
  {| clientWidth := 800; clientHeight := 600 |}.

(** A stream image that is laid out with no size. *)
Definition stream_collapsed : StreamImage :=
  {| clientWidth := 0; clientHeight := 0 |}.

(** A mouse event at [(cx, cy)] over a target whose box starts at the
    origin. *)
Definition motion (cx cy : Z) : MouseEvent :=
  {| button := 0; clientX := inject_Z cx; clientY := inject_Z cy;
     target_rect := {| left := inject_Z 0; top := inject_Z 0 |} |}.

(** A touch event with one contact point. *)
Definition touch_at (cx cy : Z) : TouchEvent :=
  {| touches := [ {| touch_clientX := inject_Z cx;
                     touch_clientY := inject_Z cy;
                     touch_target_rect := {| left := inject_Z 0;
                                             top := inject_Z 0 |} |} ] |}.

(** A burst of raw motion updates. *)
Definition motions (es : list (StreamImage * MouseEvent))
    : list (StreamImage * event) :=
  map (fun de => (fst de, onmousemove (snd de))) es.

(** The pointer enters and moves to (5,5) before any socket is set. *)
Definition before_connecting : list (StreamImage * event) :=
  [ (stream_800_600, onmouseenter);
    (stream_800_600, onmousemove (motion 5 5)) ].

(** No socket, pointer at (5,5), nothing sent yet. *)
Definition offline_moved : Mouse := fst (run before_connecting Mouse_init).

(** The pointer enters, a socket is set, and the pointer moves to (5,5). *)
Definition after_connecting : list (StreamImage * event) :=
  [ (stream_800_600, onmouseenter);
    (stream_800_600, call_setSocket (Some (socket 0)));
    (stream_800_600, onmousemove (motion 5 5)) ].

(** A socket, pointer at (5,5), nothing sent yet. *)
Definition online_moved : Mouse := fst (run after_connecting Mouse_init).

(** A socket, the pointer where it was last sent. *)
Definition online_idle : Mouse :=
  fst (run [ (stream_800_600, onmouseenter);
             (stream_800_600, call_setSocket (Some (socket 0))) ]
           Mouse_init).

(** The pointer is over [stream-box], 900 pixels right of the left edge of
    the event target, while the stream image is 800 pixels wide. *)
Definition pointer_right_of_image : list (StreamImage * event) :=
  [ (stream_800_600, call_setSocket (Some (socket 0)));
    (stream_800_600,
     onmousemove {| button := 0; clientX := inject_Z 1000;
                    clientY := inject_Z 350;
                    target_rect := {| left := inject_Z 100;
                                      top := inject_Z 50 |} |});
    (stream_800_600, tick) ].

Definition pointer_over_collapsed_image : list (StreamImage * event) :=
  [ (stream_collapsed, call_setSocket (Some (socket 0)));
    (stream_collapsed, onmousemove (motion 5 5));
    (stream_collapsed, tick) ].

(** The state after one tap at (10,10). *)
Definition tapped_once : Mouse :=
  fst (run [ (stream_800_600, call_setSocket (Some (socket 0)));
             (stream_800_600, ontouchstart (touch_at 10 10));
             (stream_800_600, ontouchend {| touches := [] |}) ]
           Mouse_init).

(** Every [mouse_move] of the trace carries 16-bit signed coordinates. *)
Definition in_int16 (tr : list effect) : Prop :=
  forall to, In (mouse_move to) (sent tr) ->
             int16 (x to) = true /\ int16 (y to) = true.

(** Every [mouse_move] of the trace carries finite coordinates. *)
Definition finite_moves (tr : list effect) : Prop :=
  forall to, In (mouse_move to) (sent tr) ->
             is_finite (x to) = true /\ is_finite (y to) = true.

(** A flush transmits a move exactly when the pointer is not where it was
    last sent. *)
Definition flush_sends_iff_moved (img : StreamImage) (st : Mouse) : Prop :=
  (exists to, sent (snd (__sendMove img st)) = [mouse_move to])
  <-> __current_pos st <> __sent_pos st.

(** A burst of motion updates followed by a tick transmits one move. *)
Definition burst_sends_once (img : StreamImage)
    (es : list (StreamImage * MouseEvent)) (e : StreamImage * MouseEvent)
    (st : Mouse) : Prop :=
  exists to,
    sent (snd (run (motions (es ++ [e]) ++ [(img, tick)]) st))
    = [mouse_move to].

(** A recognized button with a pending position change transmits the move
    and then the button. *)
Definition button_flushes_then_sends (img : StreamImage) (event : MouseEvent)
    (state : bool) (st : Mouse) : Prop :=
  forall name,
    button_name (button event) = Some name ->
    __current_pos st <> __sent_pos st ->
    sent (snd (__buttonHandler img event state st))
    = [mouse_move (normalized img (__current_pos st));
       mouse_button name state].

(** A touch-start transmits a move to the touch point and then the press
    of the left button. *)
Definition touchstart_moves_then_presses (img : StreamImage) (t : Touch)
    (rest : list Touch) (st : Mouse) : Prop :=
  let p := offset (touch_clientX t) (touch_clientY t) (touch_target_rect t) in
  exists st' tr,
    __touchHandler img {| touches := t :: rest |} true st = Some (st', tr) /\
    __current_pos st' = p /\
    sent tr = [mouse_move (normalized img p); mouse_button "left" true].

(** The last pixel column maps to the top of the range, up to one unit of
    rounding. *)
Definition last_pixel_is_maximum (e : Z) : Prop :=
  exists r, normalize (of_Z (e - 1)) e = of_Z r /\ 32766 <= r <= 32767.

(** ** Further notions for runs of the event loop *)

(** The events whose handler calls [__sendMove]: the interval, a press or
    release of a recognized button, a touch-start. *)
Definition flushing (ev : event) : bool :=
  match ev with
  | tick | ontouchstart _ => true
  | onmousedown e | onmouseup e =>
      match button_name (button e) with Some _ => true | None => false end
  | _ => false
  end.

(** The socket the last [setSocket] of a run left, [ws0] if there was none. *)
Definition last_socket (evs : list (StreamImage * event))
    (ws0 : option WebSocket) : option WebSocket :=
  fold_left (fun ws de => match snd de with
                          | call_setSocket w => w
                          | _ => ws
                          end) evs ws0.

(** Whether the last enter or leave of a run was an enter. *)
Definition last_hover (evs : list (StreamImage * event)) (h0 : bool) : bool :=
  fold_left (fun h de => match snd de with
                         | onmouseenter => true
                         | onmouseleave => false
                         | _ => h
                         end) evs h0.

(** The payload of a wheel event: its raw deltas. *)
Definition wheel_payload (e : WheelEvent) : message :=
  mouse_wheel {| x := Fin (deltaX e); y := Fin (deltaY e) |}.

(** A burst of wheel events. *)
Definition wheels (es : list (StreamImage * WheelEvent))
    : list (StreamImage * event) :=
  map (fun de => (fst de, onwheel (snd de))) es.

(** What the LED shows for a state: "tracked" with a socket and the pointer
    over the stream, "free" otherwise. *)
Definition led_shown (st : Mouse) : effect :=
  match __ws st with
  | Some _ =>
      if __stream_hovered st then led "led-on" "Mouse tracked"
      else led "led-off" "Mouse free"
  | None => led "led-off" "Mouse free"
  end.

Definition is_led (e : effect) : bool :=
  match e with led _ _ => true | _ => false end.

Definition is_preventDefault (e : effect) : bool :=
  match e with preventDefault => true | _ => false end.

Definition is_stopPropagation (e : effect) : bool :=
  match e with stopPropagation => true | _ => false end.

(** The events whose handler reaches a call of [event.preventDefault()]:
    the context menu, a recognized button, a wheel event that has the
    method, a touch. *)
Definition suppresses (ev : event) : bool :=
  match ev with
  | oncontextmenu | ontouchstart _ | ontouchend _ => true
  | onmousedown e | onmouseup e =>
      match button_name (button e) with Some _ => true | None => false end
  | onwheel e => has_preventDefault e
  | _ => false
  end.

(** The events whose handler calls [updateLeds]. *)
Definition updates_led (ev : event) : bool :=
  match ev with
  | onmouseenter | onmouseleave | call_updateLeds => true
  | _ => false
  end.
(** ** Binary64 rounding is monotone *)

Lemma round_half_even_cases n d :
  round_half_even n d = n / d \/ round_half_even n d = n / d + 1.
Proof.
  unfold round_half_even.
  destruct (2 * (n mod d) ?= d); auto.
  destruct (Z.even (n / d)); auto.
Qed.

Lemma round_half_even_lower n d c :
  0 < d -> c * d <= n -> c <= round_half_even n d.
Proof.
  intros Hd Hc.
  assert (c <= n / d) by (apply Z.div_le_lower_bound; lia).
  destruct (round_half_even_cases n d); lia.
Qed.

Lemma round_half_even_upper n d c :
  0 < d -> n <= c * d -> round_half_even n d <= c.
Proof.
  intros Hd Hc.
  pose proof (Z.div_mod n d ltac:(lia)) as E.
  pose proof (Z.mod_pos_bound n d Hd) as B.
  unfold round_half_even.
  assert (n / d <= c) by nia.
  destruct (Z.compare_spec (2 * (n mod d)) d); try lia.
  - destruct (Z.even (n / d)); nia.
  - nia.
Qed.

Lemma round_half_even_mono n d n' d' :
  0 < d -> 0 < d' -> n * d' <= n' * d ->
  round_half_even n d <= round_half_even n' d'.
Proof.
  intros Hd Hd' H.
  pose proof (Z.div_mod n d ltac:(lia)) as E.
  pose proof (Z.mod_pos_bound n d Hd) as B.
  pose proof (Z.div_mod n' d' ltac:(lia)) as E'.
  pose proof (Z.mod_pos_bound n' d' Hd') as B'.
  set (f := n / d) in *. set (r := n mod d) in *.
  set (f' := n' / d') in *. set (r' := n' mod d') in *.
  assert (Hf : f <= f').
  { destruct (Z.le_gt_cases f f') as [L | G]; [exact L | exfalso].
    assert (0 < d * d') by nia.
    assert ((d * d') * (f' + 1) <= (d * d') * f) by (apply Z.mul_le_mono_nonneg_l; lia).
    nia. }
  destruct (Z.eq_dec f f') as [F | F].
  - unfold round_half_even. fold f r f' r'. rewrite <- F.
    assert (R : r * d' <= r' * d) by nia.
    destruct (Z.compare_spec (2 * r) d), (Z.compare_spec (2 * r') d');
      try destruct (Z.even f); try lia; nia.
  - pose proof (round_half_even_cases n d).
    pose proof (round_half_even_lower n' d' f' Hd' ltac:(nia)).
    fold f in H0. lia.
Qed.

Lemma pow2_pos a : 0 <= a -> 0 < 2 ^ a.
Proof. intros; apply Z.pow_pos_nonneg; lia. Qed.

Lemma pow2_le a b : a <= b -> 2 ^ a <= 2 ^ b.
Proof. intros; apply Z.pow_le_mono_r; lia. Qed.

Lemma pow2_succ a : 0 <= a -> 2 ^ (a + 1) = 2 * 2 ^ a.
Proof. intros; rewrite Z.pow_add_r by lia; rewrite Z.pow_1_r; lia. Qed.

Lemma ilog2_spec n d :
  0 < n -> 0 < d ->
  (ilog2 n d < 0 -> n < d) /\
  (0 <= ilog2 n d -> d * 2 ^ ilog2 n d <= n < d * 2 ^ (ilog2 n d + 1)).
Proof.
  intros Hn Hd.
  destruct (Z.log2_spec n Hn) as [Ln Un].
  destruct (Z.log2_spec d Hd) as [Ld Ud].
  pose proof (Z.log2_nonneg n) as Nn.
  pose proof (Z.log2_nonneg d) as Nd.
  unfold ilog2.
  set (ln := Z.log2 n) in *. set (ld := Z.log2 d) in *.
  replace (Z.succ ln) with (ln + 1) in Un by lia.
  replace (Z.succ ld) with (ld + 1) in Ud by lia.
  destruct (Z.leb_spec (d * 2 ^ (ln - ld)) n) as [A | B].
  - split.
    + intros Hk. pose proof (pow2_le (ln + 1) ld ltac:(lia)). lia.
    + intros Hk. split; [exact A |].
      replace (ln + 1) with (ld + (ln - ld + 1)) in Un by lia.
      rewrite Z.pow_add_r in Un by lia.
      pose proof (pow2_pos (ln - ld + 1) ltac:(lia)). nia.
  - assert (Hk : 0 <= ln - ld).
    { destruct (Z.le_gt_cases 0 (ln - ld)) as [L | G]; [exact L |].
      rewrite (Z.pow_neg_r 2 (ln - ld)) in B by lia. lia. }
    split.
    + intros Hneg. assert (E : ln - ld = 0) by lia. rewrite E in B.
      change (2 ^ 0) with 1 in B. lia.
    + intros Hpos. replace (ln - ld - 1 + 1) with (ln - ld) by lia.
      split; [| exact B].
      pose proof (pow2_pos (ln - ld - 1) Hpos).
      replace ln with (ld + 1 + (ln - ld - 1)) in Ln at 1 by lia.
      rewrite Z.pow_add_r in Ln by lia. nia.
Qed.

Lemma shift_spec n d :
  0 < n -> 0 < d ->
  0 <= shift n d /\
  n < d * 2 ^ (shift n d + 53) /\
  (0 < shift n d -> d * 2 ^ (shift n d + 52) <= n).
Proof.
  intros Hn Hd. destruct (ilog2_spec n d Hn Hd) as [Neg Pos].
  unfold shift. set (k := ilog2 n d) in *.
  destruct (Z.max_spec 0 (k - 52)) as [[L E] | [L E]]; rewrite E.
  - split; [lia |]. split.
    + replace (k - 52 + 53) with (k + 1) by lia. apply Pos; lia.
    + intros _. replace (k - 52 + 52) with k by lia. apply Pos; lia.
  - split; [lia |]. split; [| lia].
    change (0 + 53) with 53.
    destruct (Z.le_gt_cases 0 k) as [K | K].
    + destruct (Pos K) as [_ U].
      pose proof (pow2_le (k + 1) 53 ltac:(lia)).
      pose proof (pow2_pos (k + 1) ltac:(lia)). nia.
    + pose proof (pow2_pos 53 ltac:(lia)). specialize (Neg K). nia.
Qed.

Lemma shift_mono n d n' d' :
  0 < n -> 0 < d -> 0 < n' -> 0 < d' -> n * d' <= n' * d ->
  shift n d <= shift n' d'.
Proof.
  intros Hn Hd Hn' Hd' H.
  destruct (shift_spec n d Hn Hd) as (S0 & _ & L).
  destruct (shift_spec n' d' Hn' Hd') as (S0' & U' & _).
  destruct (Z.le_gt_cases (shift n d) (shift n' d')) as [Le | Gt];
    [exact Le | exfalso].
  specialize (L ltac:(lia)).
  pose proof (pow2_le (shift n' d' + 53) (shift n d + 52) ltac:(lia)).
  pose proof (pow2_pos (shift n' d' + 53) ltac:(lia)).
  set (a := 2 ^ (shift n d + 52)) in *.
  set (b := 2 ^ (shift n' d' + 53)) in *.
  assert (n' * d < d' * b * d) by nia.
  assert (d' * b * d <= d' * a * d) by nia.
  assert (d' * (d * a) <= d' * n) by nia.
  nia.
Qed.

Lemma fl_pos_mono n d n' d' :
  0 < n -> 0 < d -> 0 < n' -> 0 < d' -> n * d' <= n' * d ->
  fl_pos n d <= fl_pos n' d'.
Proof.
  intros Hn Hd Hn' Hd' H.
  pose proof (shift_mono n d n' d' Hn Hd Hn' Hd' H) as Hs.
  destruct (shift_spec n d Hn Hd) as (S0 & U & _).
  destruct (shift_spec n' d' Hn' Hd') as (S0' & _ & L').
  unfold fl_pos.
  set (s := shift n d) in *. set (s' := shift n' d') in *.
  pose proof (pow2_pos s S0) as Ps. pose proof (pow2_pos s' S0') as Ps'.
  destruct (Z.eq_dec s s') as [E | E].
  - rewrite <- E.
    apply Z.mul_le_mono_nonneg_r; [lia |].
    apply round_half_even_mono; nia.
  - specialize (L' ltac:(lia)).
    rewrite Z.pow_add_r in U by lia.
    rewrite Z.pow_add_r in L' by lia.
    assert (Hm : round_half_even n (d * 2 ^ s) <= 2 ^ 53)
      by (apply round_half_even_upper; nia).
    assert (Hm' : 2 ^ 52 <= round_half_even n' (d' * 2 ^ s'))
      by (apply round_half_even_lower; nia).
    assert (P : 2 ^ 53 * 2 ^ s <= 2 ^ 52 * 2 ^ s').
    { rewrite <- !Z.pow_add_r by lia. apply pow2_le. lia. }
    pose proof (pow2_pos 52 ltac:(lia)). pose proof (pow2_pos 53 ltac:(lia)).
    set (m := round_half_even n (d * 2 ^ s)) in *.
    set (m' := round_half_even n' (d' * 2 ^ s')) in *.
    set (p52 := 2 ^ 52) in *. set (p53 := 2 ^ 53) in *.
    set (a := 2 ^ s) in *. set (a' := 2 ^ s') in *.
    assert (m * a <= p53 * a) by nia.
    assert (p52 * a' <= m' * a') by nia.
    lia.
Qed.

Lemma fl_pos_nonneg n d : 0 <= n -> 0 < d -> 0 <= fl_pos n d.
Proof.
  intros Hn Hd. unfold fl_pos.
  pose proof (Z.max_spec 0 (ilog2 n d - 52)) as M. fold (shift n d) in M.
  assert (0 <= shift n d) by lia.
  pose proof (pow2_pos (shift n d) H).
  apply Z.mul_nonneg_nonneg; [| lia].
  apply round_half_even_lower; nia.
Qed.

Lemma quantum_pos : 0 < quantum.
Proof. unfold quantum. apply pow2_pos. lia. Qed.

Lemma fl_Qeq q q' : (q == q')%Q -> fl q = fl q'.
Proof. intros H. unfold fl. rewrite (Qred_complete q q' H). reflexivity. Qed.

Lemma Qred_le a b : (a <= b)%Q -> (Qred a <= Qred b)%Q.
Proof. intros H. rewrite !Qred_correct. exact H. Qed.

Lemma grid_le M M' :
  M <= M' ->
  (Qred (M # Z.to_pos quantum) <= Qred (M' # Z.to_pos quantum))%Q.
Proof.
  intros H. apply Qred_le. unfold Qle; simpl.
  apply Z.mul_le_mono_nonneg_r; [lia | exact H].
Qed.

Lemma fl_mono q q' : (q <= q')%Q -> le (fl q) (fl q').
Proof.
  intros H. apply Qred_le in H. unfold fl.
  destruct (Qred q) as [n d], (Qred q') as [n' d'].
  unfold Qle in H; simpl in H. simpl Qnum; simpl Qden.
  pose proof quantum_pos as Qp.
  destruct (Z.eqb_spec n 0) as [N0 | N0], (Z.eqb_spec n' 0) as [N0' | N0'].
  - cbv [le]. apply Qle_refl.
  - assert (0 < n') by (clear - H N0 N0'; subst n; nia).
    replace (Z.abs n') with n' by lia. replace (Z.sgn n') with 1 by lia.
    pose proof (fl_pos_nonneg (n' * quantum) (Zpos d') ltac:(nia) ltac:(lia)).
    destruct (Z.leb_spec overflow (fl_pos (n' * quantum) (Z.pos d'))).
    + destruct (Z.ltb_spec n' 0); [lia | exact I].
    + cbv [le]. change (0 # 1)%Q with (Qred (0 # Z.to_pos quantum)).
      apply grid_le. lia.
  - assert (n < 0) by (clear - H N0 N0'; subst n'; nia).
    replace (Z.abs n) with (- n) by lia. replace (Z.sgn n) with (-1) by lia.
    pose proof (fl_pos_nonneg (- n * quantum) (Zpos d) ltac:(nia) ltac:(lia)).
    destruct (Z.leb_spec overflow (fl_pos (- n * quantum) (Z.pos d))).
    + destruct (Z.ltb_spec n 0); [exact I | lia].
    + cbv [le]. change (0 # 1)%Q with (Qred (0 # Z.to_pos quantum)).
      apply grid_le. lia.
  - destruct (Z.ltb_spec n 0) as [Neg | Pos], (Z.ltb_spec n' 0) as [Neg' | Pos'].
    + replace (Z.abs n) with (- n) by lia. replace (Z.sgn n) with (-1) by lia.
      replace (Z.abs n') with (- n') by lia.
      replace (Z.sgn n') with (-1) by lia.
      assert (M : fl_pos (- n' * quantum) (Z.pos d')
                  <= fl_pos (- n * quantum) (Z.pos d))
        by (apply fl_pos_mono; nia).
      destruct (Z.leb_spec overflow (fl_pos (- n * quantum) (Z.pos d))),
               (Z.leb_spec overflow (fl_pos (- n' * quantum) (Z.pos d')));
        cbv [le]; try exact I; try lia.
      apply grid_le. lia.
    + replace (Z.abs n) with (- n) by lia. replace (Z.sgn n) with (-1) by lia.
      replace (Z.abs n') with n' by lia. replace (Z.sgn n') with 1 by lia.
      pose proof (fl_pos_nonneg (- n * quantum) (Zpos d) ltac:(nia) ltac:(lia)).
      pose proof (fl_pos_nonneg (n' * quantum) (Zpos d') ltac:(nia) ltac:(lia)).
      destruct (Z.leb_spec overflow (fl_pos (- n * quantum) (Z.pos d))),
               (Z.leb_spec overflow (fl_pos (n' * quantum) (Z.pos d')));
        cbv [le]; try exact I.
      apply grid_le. lia.
    + exfalso. clear - H Neg' Pos. nia.
    + replace (Z.abs n) with n by lia. replace (Z.sgn n) with 1 by lia.
      replace (Z.abs n') with n' by lia. replace (Z.sgn n') with 1 by lia.
      assert (M : fl_pos (n * quantum) (Z.pos d)
                  <= fl_pos (n' * quantum) (Z.pos d'))
        by (apply fl_pos_mono; nia).
      destruct (Z.leb_spec overflow (fl_pos (n * quantum) (Z.pos d))),
               (Z.leb_spec overflow (fl_pos (n' * quantum) (Z.pos d')));
        cbv [le]; try exact I; try lia.
      apply grid_le. lia.
Qed.


(** ** Facts about [__translate] on pixel coordinates *)

Lemma fl_defined q : fl q <> NaN.
Proof.
  unfold fl. destruct (Qnum (Qred q) =? 0); [discriminate |].
  destruct (overflow <=? _); discriminate.
Qed.

Lemma fl_between lo hi lo' hi' q :
  fl lo = Fin lo' -> fl hi = Fin hi' -> (lo <= q)%Q -> (q <= hi)%Q ->
  exists r, fl q = Fin r /\ (lo' <= r)%Q /\ (r <= hi')%Q.
Proof.
  intros Elo Ehi Hlo Hhi.
  pose proof (fl_mono lo q Hlo) as L. pose proof (fl_mono q hi Hhi) as U.
  rewrite Elo in L. rewrite Ehi in U.
  destruct (fl q) as [| [|] | r]; cbv [le] in L, U; try contradiction.
  exists r. auto.
Qed.

Lemma fl_above lo lo' q :
  fl lo = Fin lo' -> (lo <= q)%Q ->
  fl q = Infinity false \/ exists r, fl q = Fin r /\ (lo' <= r)%Q.
Proof.
  intros Elo Hlo. pose proof (fl_mono lo q Hlo) as L. rewrite Elo in L.
  destruct (fl q) as [| [|] | r]; cbv [le] in L; try contradiction; eauto.
Qed.

Lemma fl_below hi hi' q :
  fl hi = Fin hi' -> (q <= hi)%Q ->
  fl q = Infinity true \/ exists r, fl q = Fin r /\ (r <= hi')%Q.
Proof.
  intros Ehi Hhi. pose proof (fl_mono q hi Hhi) as U. rewrite Ehi in U.
  destruct (fl q) as [| [|] | r]; cbv [le] in U; try contradiction; eauto.
Qed.

Lemma inject_Z_minus_0 p : (inject_Z p + - inject_Z 0 == inject_Z p)%Q.
Proof. unfold Qeq; simpl. lia. Qed.

Lemma sub_of_Z_0 p : sub (of_Z p) (of_Z 0) = fl (inject_Z p).
Proof. unfold sub, of_Z, neg, add. apply fl_Qeq, inject_Z_minus_0. Qed.

Lemma Qzero_false q : (0 < q)%Q -> Qzero q = false.
Proof.
  unfold Qzero, Qlt. simpl. intros H. destruct (Z.eqb_spec (Qnum q) 0); [lia | reflexivity].
Qed.

Lemma mul_65535_range q :
  (0 <= q)%Q -> (q <= 1)%Q ->
  (0 <= q * inject_Z 65535)%Q /\ (q * inject_Z 65535 <= inject_Z 65535)%Q.
Proof.
  unfold Qle, Qmult, inject_Z; simpl. intros. lia.
Qed.

Lemma round_range q :
  (inject_Z (-32768) <= q)%Q -> (q <= inject_Z 32767)%Q ->
  -32768 <= Qfloor (q + (1 # 2)) <= 32767.
Proof.
  intros L U.
  assert (A : (inject_Z (-32768) + (1 # 2) <= q + (1 # 2))%Q)
    by (apply Qplus_le_l; exact L).
  assert (B : (q + (1 # 2) <= inject_Z 32767 + (1 # 2))%Q)
    by (apply Qplus_le_l; exact U).
  apply Qfloor_resp_le in A. apply Qfloor_resp_le in B.
  change (Qfloor (inject_Z (-32768) + (1 # 2))) with (-32768) in A.
  change (Qfloor (inject_Z 32767 + (1 # 2))) with 32767 in B.
  lia.
Qed.

Lemma span : sub (of_Z 32767) (of_Z (-32768)) = Fin (inject_Z 65535).
Proof. vm_compute. reflexivity. Qed.

Lemma fl_Z0 : fl (inject_Z 0) = Fin (inject_Z 0).
Proof. vm_compute. reflexivity. Qed.
Lemma fl_Z1 : fl (inject_Z 1) = Fin (inject_Z 1).
Proof. vm_compute. reflexivity. Qed.
Lemma fl_Zm1 : fl (inject_Z (-1)) = Fin (inject_Z (-1)).
Proof. vm_compute. reflexivity. Qed.
Lemma fl_Z65535 : fl (inject_Z 65535) = Fin (inject_Z 65535).
Proof. vm_compute. reflexivity. Qed.
Lemma fl_Zmin : fl (inject_Z (-32768)) = Fin (inject_Z (-32768)).
Proof. vm_compute. reflexivity. Qed.
Lemma fl_Zmax : fl (inject_Z 32767) = Fin (inject_Z 32767).
Proof. vm_compute. reflexivity. Qed.
Lemma fl_safe : fl (inject_Z MAX_SAFE_INTEGER) = Fin (inject_Z MAX_SAFE_INTEGER).
Proof. vm_compute. reflexivity. Qed.

Lemma inject_Z_le a b : a <= b -> (inject_Z a <= inject_Z b)%Q.
Proof. intros. rewrite <- Zle_Qle. assumption. Qed.

(** An extent between 1 and [MAX_SAFE_INTEGER] is a finite number of at
    least 1. *)
Lemma extent_finite e :
  0 < e <= MAX_SAFE_INTEGER ->
  exists b, fl (inject_Z e) = Fin b /\ (1 <= b)%Q.
Proof.
  intros [L U].
  destruct (fl_between _ _ _ _ (inject_Z e) fl_Z1 fl_safe) as (b & E & B1 & _).
  - apply inject_Z_le. lia.
  - apply inject_Z_le. lia.
  - exists b. split; [exact E | exact B1].
Qed.

Lemma normalize_range p e :
  0 <= p <= e -> 0 < e <= MAX_SAFE_INTEGER ->
  exists r, normalize (of_Z p) e = of_Z r /\ -32768 <= r <= 32767.
Proof.
  intros [P0 Pe] He.
  destruct (extent_finite e He) as (b & Eb & B1).
  destruct (fl_between _ _ _ _ (inject_Z p) fl_Z0 Eb) as (a & Ea & A0 & Ab).
  { apply inject_Z_le; lia. } { apply inject_Z_le; lia. }
  unfold normalize, __translate.
  rewrite !sub_of_Z_0, span, Ea, Eb.
  assert (Bp : (0 < b)%Q) by (eapply Qlt_le_trans; [| exact B1]; reflexivity).
  unfold div. rewrite (Qzero_false b Bp).
  destruct (fl_between _ _ _ _ (a / b)%Q fl_Z0 fl_Z1) as (q1 & E1 & L1 & U1).
  { apply Qle_shift_div_l; [exact Bp |]. rewrite Qmult_0_l. exact A0. }
  { apply Qle_shift_div_r; [exact Bp |]. rewrite Qmult_1_l. exact Ab. }
  rewrite E1. unfold mul.
  destruct (mul_65535_range q1 L1 U1) as [L2' U2'].
  destruct (fl_between _ _ _ _ (q1 * inject_Z 65535)%Q fl_Z0 fl_Z65535 L2' U2')
    as (q2 & E2 & L2 & U2).
  rewrite E2. unfold add, of_Z.
  destruct (fl_between _ _ _ _ (q2 + inject_Z (-32768))%Q fl_Zmin fl_Zmax)
    as (q3 & E3 & L3 & U3).
  { rewrite <- (Qplus_0_l (inject_Z (-32768))) at 1.
    apply Qplus_le_l. exact L2. }
  { setoid_replace (inject_Z 32767) with (inject_Z 65535 + inject_Z (-32768))%Q
      by reflexivity.
    apply Qplus_le_l. exact U2. }
  rewrite E3. unfold Math_round.
  exists (Qfloor (q3 + (1 # 2))). split; [reflexivity |].
  apply round_range; assumption.
Qed.

Lemma fl_zero_quotient b : fl (inject_Z 0 / b) = Fin (inject_Z 0).
Proof.
  rewrite <- fl_Z0. apply fl_Qeq. unfold Qdiv. apply Qmult_0_l.
Qed.

Lemma tail_min : 
  Math_round (add (mul (Fin (inject_Z 0)) (Fin (inject_Z 65535))) (of_Z (-32768)))
  = of_Z (-32768).
Proof. vm_compute. reflexivity. Qed.

Lemma tail_max : 
  Math_round (add (mul (fl (inject_Z 1)) (Fin (inject_Z 65535))) (of_Z (-32768)))
  = of_Z 32767.
Proof. vm_compute. reflexivity. Qed.

Lemma normalize_origin e : 0 < e -> normalize (of_Z 0) e = of_Z (-32768).
Proof.
  intros He. unfold normalize, __translate.
  rewrite !sub_of_Z_0, span, fl_Z0.
  destruct (fl_above _ _ (inject_Z e) fl_Z1) as [E | (b & E & B1)].
  { apply inject_Z_le; lia. }
  - rewrite E. unfold div. apply tail_min.
  - rewrite E. unfold div.
    rewrite (Qzero_false b) by (eapply Qlt_le_trans; [| exact B1]; reflexivity).
    rewrite fl_zero_quotient. apply tail_min.
Qed.

Lemma normalize_extent e :
  0 < e <= MAX_SAFE_INTEGER -> normalize (of_Z e) e = of_Z 32767.
Proof.
  intros He. destruct (extent_finite e He) as (b & Eb & B1).
  assert (Bp : (0 < b)%Q) by (eapply Qlt_le_trans; [| exact B1]; reflexivity).
  unfold normalize, __translate.
  rewrite !sub_of_Z_0, span, Eb. unfold div. rewrite (Qzero_false b Bp).
  rewrite (fl_Qeq (b / b) (inject_Z 1)).
  - apply tail_max.
  - unfold Qdiv. apply Qmult_inv_r. intros Z. rewrite Z in Bp. discriminate.
Qed.

(** Division by the extent 0: the quotient is NaN or an infinity, and so
    is everything computed from it. *)
Lemma normalize_no_extent v : is_finite (normalize v 0) = false.
Proof.
  unfold normalize, __translate. rewrite span.
  change (sub (of_Z 0) (of_Z 0)) with (Fin (inject_Z 0)).
  destruct (sub v (of_Z 0)) as [| s | q]; try reflexivity.
  unfold div. change (Qzero (inject_Z 0)) with true. cbv iota.
  destruct (Qzero q); reflexivity.
Qed.

Lemma normalize_pixel_no_extent p :
  normalize (of_Z p) 0 = if p =? 0 then NaN else Infinity (p <? 0).
Proof.
  unfold normalize, __translate. rewrite span, sub_of_Z_0.
  change (sub (of_Z 0) (of_Z 0)) with (Fin (inject_Z 0)).
  destruct (Z.eqb_spec p 0) as [-> | N].
  - reflexivity.
  - destruct (Z.ltb_spec p 0) as [Lt | Ge].
    + destruct (fl_below _ _ (inject_Z p) fl_Zm1) as [E | (r & E & R)].
      { apply inject_Z_le; lia. }
      * rewrite E. reflexivity.
      * rewrite E. unfold div. change (Qzero (inject_Z 0)) with true. cbv iota.
        assert (Qnum r < 0).
        { unfold Qle in R; simpl in R. lia. }
        unfold Qzero, Qneg.
        destruct (Z.eqb_spec (Qnum r) 0); [lia |].
        destruct (Z.ltb_spec (Qnum r) 0); [reflexivity | lia].
    + destruct (fl_above _ _ (inject_Z p) fl_Z1) as [E | (r & E & R)].
      { apply inject_Z_le; lia. }
      * rewrite E. reflexivity.
      * rewrite E. unfold div. change (Qzero (inject_Z 0)) with true. cbv iota.
        assert (0 < Qnum r).
        { unfold Qle in R; simpl in R. lia. }
        unfold Qzero, Qneg.
        destruct (Z.eqb_spec (Qnum r) 0); [lia |].
        destruct (Z.ltb_spec (Qnum r) 0); [lia | reflexivity].
Qed.


(** ** Facts about traces and flushes *)

Lemma sent_app tr tr' : sent (tr ++ tr') = sent tr ++ sent tr'.
Proof.
  induction tr as [| e tr IH]; [reflexivity |].
  destruct e; simpl; rewrite ?IH; reflexivity.
Qed.

Lemma sent_send ws m : sent (send ws m) = deliver ws [m].
Proof. destruct ws; reflexivity. Qed.

Lemma deliver_app ws ms ms' :
  deliver ws (ms ++ ms') = deliver ws ms ++ deliver ws ms'.
Proof. destruct ws; reflexivity. Qed.

Lemma deliver_nil ws : deliver ws [] = [].
Proof. destruct ws; reflexivity. Qed.

Lemma moves_app tr tr' : moves (tr ++ tr') = moves tr ++ moves tr'.
Proof. unfold moves. rewrite sent_app. apply filter_app. Qed.

(** The trace and the successor state of a flush. *)
Lemma sendMove_sent img st :
  sent (snd (__sendMove img st))
  = deliver (__ws st)
      (if moved (__current_pos st) (__sent_pos st)
       then [mouse_move (normalized img (__current_pos st))] else []).
Proof.
  unfold __sendMove.
  destruct (moved (__current_pos st) (__sent_pos st)); simpl.
  - apply sent_send.
  - symmetry. apply deliver_nil.
Qed.

Lemma sendMove_state img st :
  fst (__sendMove img st)
  = if moved (__current_pos st) (__sent_pos st)
    then set_sent_pos (__current_pos st) st else st.
Proof.
  unfold __sendMove.
  destruct (moved (__current_pos st) (__sent_pos st)); reflexivity.
Qed.

Lemma sendMove_ws img st : __ws (fst (__sendMove img st)) = __ws st.
Proof.
  rewrite sendMove_state.
  destruct (moved (__current_pos st) (__sent_pos st)); reflexivity.
Qed.

Lemma sendMove_current img st :
  __current_pos (fst (__sendMove img st)) = __current_pos st.
Proof.
  rewrite sendMove_state.
  destruct (moved (__current_pos st) (__sent_pos st)); reflexivity.
Qed.

(** On stored coordinates [!==] is disequality. *)
Lemma pixel_Fin q : Pos.eqb (Qden q) 1 = true -> q = inject_Z (Qnum q).
Proof.
  intros H. apply Pos.eqb_eq in H. destruct q as [n d]. simpl in *.
  subst d. reflexivity.
Qed.

Lemma strict_ne_refl a : pixel a = true -> strict_ne a a = false.
Proof.
  destruct a as [| s | q]; simpl; intros H.
  - discriminate.
  - destruct s; reflexivity.
  - apply negb_false_iff, Qeq_bool_iff. reflexivity.
Qed.

Lemma strict_ne_false a b :
  pixel a = true -> pixel b = true -> strict_ne a b = false -> a = b.
Proof.
  destruct a as [| s | p], b as [| t | q]; simpl; try discriminate.
  - intros _ _ H. apply negb_false_iff, eqb_prop in H. congruence.
  - intros Hp Hq H. apply negb_false_iff, Qeq_bool_iff in H.
    rewrite (pixel_Fin p Hp), (pixel_Fin q Hq) in *.
    unfold Qeq in H; simpl in H.
    replace (Qnum q) with (Qnum p) by lia. reflexivity.
Qed.

Lemma moved_same p : pixels p = true -> moved p p = false.
Proof.
  unfold pixels, moved. intros H. apply andb_true_iff in H as [Hx Hy].
  rewrite (strict_ne_refl _ Hx), (strict_ne_refl _ Hy). reflexivity.
Qed.

Lemma moved_false p q :
  pixels p = true -> pixels q = true -> moved p q = false -> p = q.
Proof.
  unfold pixels, moved. intros Hp Hq H.
  apply andb_true_iff in Hp as [Hpx Hpy]. apply andb_true_iff in Hq as [Hqx Hqy].
  apply orb_false_iff in H as [Ex Ey].
  destruct p as [px py], q as [qx qy]; simpl in *.
  rewrite (strict_ne_false _ _ Hpx Hqx Ex), (strict_ne_false _ _ Hpy Hqy Ey).
  reflexivity.
Qed.

Lemma moved_pixels p q :
  pixels p = true -> pixels q = true -> (moved p q = true <-> p <> q).
Proof.
  intros Hp Hq. split.
  - intros M E. subst q. rewrite (moved_same p Hp) in M. discriminate.
  - intros N. destruct (moved p q) eqn:M; [reflexivity |].
    elim N. apply moved_false; assumption.
Qed.

Create Rewrite HintDb trace.
#[local] Hint Rewrite sent_app sent_send deliver_app deliver_nil : trace.

Lemma buttonHandler_sent img event state st name :
  button_name (button event) = Some name ->
  sent (snd (__buttonHandler img event state st))
  = deliver (__ws st)
      ((if moved (__current_pos st) (__sent_pos st)
        then [mouse_move (normalized img (__current_pos st))] else [])
       ++ [mouse_button name state]).
Proof.
  intros Hn. unfold __buttonHandler. rewrite Hn.
  pose proof (sendMove_sent img st) as S.
  pose proof (sendMove_ws img st) as W.
  destruct (__sendMove img st) as [st1 tr]. simpl in *.
  autorewrite with trace. rewrite S, W. reflexivity.
Qed.

(** *** Runs *)

Lemma run_app evs evs' st :
  run (evs ++ evs') st
  = let (st1, tr) := run evs st in
    let (st2, tr') := run evs' st1 in (st2, tr ++ tr').
Proof.
  revert st. induction evs as [| [img ev] evs IH]; intros st; simpl.
  - destruct (run evs' st); reflexivity.
  - destruct (dispatch img ev st) as [[st1 tr] |].
    + rewrite IH. destruct (run evs st1) as [st2 tr2].
      destruct (run evs' st2) as [st3 tr3]. rewrite app_assoc. reflexivity.
    + apply IH.
Qed.

(** A burst of motion updates only leaves the last position behind. *)
Lemma run_motions es e st :
  run (motions (es ++ [e])) st = (__moveHandler (snd e) st, []).
Proof.
  revert st. induction es as [| e0 es IH]; intros st; simpl.
  - reflexivity.
  - unfold motions in IH. rewrite IH. destruct st; reflexivity.
Qed.

Lemma run_tick img st :
  run [(img, tick)] st = (fst (__sendMove img st), snd (__sendMove img st)).
Proof.
  simpl. destruct (__sendMove img st) as [st1 tr]. simpl.
  rewrite app_nil_r. reflexivity.
Qed.

(** *** Every reachable state is settled *)

Lemma Math_round_fl_pixel q : pixel (Math_round (fl q)) = true.
Proof.
  pose proof (fl_defined q) as D.
  destruct (fl q) as [| s | r]; [contradiction | reflexivity | reflexivity].
Qed.

Lemma offset_pixels cx cy rect : pixels (offset cx cy rect) = true.
Proof.
  unfold pixels, offset, sub, add, neg; cbn [x y].
  rewrite !Math_round_fl_pixel. reflexivity.
Qed.

Lemma settled_init : settled Mouse_init = true.
Proof. reflexivity. Qed.

Lemma sendMove_settled img st :
  settled st = true -> settled (fst (__sendMove img st)) = true.
Proof.
  intros H. rewrite sendMove_state.
  destruct (moved (__current_pos st) (__sent_pos st)); [| exact H].
  unfold settled in *. apply andb_true_iff in H as [Hc _].
  cbn [set_sent_pos __current_pos __sent_pos]. rewrite Hc. reflexivity.
Qed.

Lemma set_current_settled p st :
  pixels p = true -> settled st = true ->
  settled (set_current_pos p st) = true.
Proof.
  unfold settled. intros Hp H. apply andb_true_iff in H as [_ Hs].
  cbn [set_current_pos __current_pos __sent_pos]. rewrite Hp, Hs. reflexivity.
Qed.

Lemma dispatch_settled img ev st r :
  settled st = true -> dispatch img ev st = Some r -> settled (fst r) = true.
Proof.
  intros H D.
  destruct ev as [| | e | e | | e | e | e | e | | ws |]; simpl in D;
    try (injection D as <-; exact H).
  - injection D as <-. unfold __buttonHandler.
    destruct (button_name (button e)); [| exact H].
    pose proof (sendMove_settled img st H).
    destruct (__sendMove img st); assumption.
  - injection D as <-. unfold __buttonHandler.
    destruct (button_name (button e)); [| exact H].
    pose proof (sendMove_settled img st H).
    destruct (__sendMove img st); assumption.
  - injection D as <-. apply set_current_settled; [apply offset_pixels | exact H].
  - unfold __touchHandler in D. destruct (touches e) as [| t ts]; [discriminate |].
    match type of D with context [__sendMove img ?s] =>
      pose proof (sendMove_settled img s) as S;
      destruct (__sendMove img s) as [st1 tr]
    end.
    injection D as <-. apply S.
    apply set_current_settled; [apply offset_pixels | exact H].
  - injection D as <-. apply sendMove_settled. exact H.
Qed.

Lemma run_settled evs :
  forall st, settled st = true -> settled (fst (run evs st)) = true.
Proof.
  induction evs as [| [img ev] evs IH]; intros st H; simpl.
  - exact H.
  - destruct (dispatch img ev st) as [[st1 tr] |] eqn:D.
    + specialize (IH st1 (dispatch_settled img ev st _ H D)).
      destruct (run evs st1). exact IH.
    + apply IH. exact H.
Qed.

(** Every state the event loop reaches from the constructor's state. *)
Lemma reachable_settled evs : settled (fst (run evs Mouse_init)) = true.
Proof. apply run_settled, settled_init. Qed.

(** The scenario states, evaluated. *)
Lemma offline_moved_state :
  offline_moved = mkMouse None (at_pixel 5 5) (at_pixel 0 0) true.
Proof. vm_compute. reflexivity. Qed.

Lemma online_moved_state :
  online_moved
  = mkMouse (Some (socket 0)) (at_pixel 5 5) (at_pixel 0 0) true.
Proof. vm_compute. reflexivity. Qed.

(** *** While the pointer rests where it was last sent *)

Section Rest.

Variable p : Point.
Hypothesis Hp : pixels p = true.

Lemma rest_dispatch img ev st :
  __current_pos st = p -> __sent_pos st = p -> stays p ev ->
  match dispatch img ev st with
  | Some (st', tr) =>
      __current_pos st' = p /\ __sent_pos st' = p /\ moves tr = []
  | None => True
  end.
Proof.
  intros Hc Hs Hev. destruct st as [ws cur snt hov]. simpl in Hc, Hs.
  subst cur snt.
  pose proof (moved_same p Hp) as M.
  destruct ev as [| | e | e | | e | e | e | e | | ws' |];
    unfold stays, pointer_of in Hev;
    unfold dispatch, __hoverStream, __leaveStream, __buttonHandler,
      __wheelHandler, __touchHandler, __sendMove, __moveHandler,
      updateLeds, setSocket, set_ws, set_sent_pos, set_current_pos,
      set_stream_hovered;
    cbn [__ws __current_pos __sent_pos __stream_hovered fst snd].
  - destruct ws; auto.
  - destruct ws; auto.
  - rewrite M. destruct (button_name (button e)), ws; auto.
  - rewrite M. destruct (button_name (button e)), ws; auto.
  - auto.
  - rewrite Hev. auto.
  - destruct (has_preventDefault e), ws; auto.
  - destruct (touches e) as [| t ts]; [exact I |].
    rewrite Hev, M. destruct ws; auto.
  - destruct ws; auto.
  - rewrite M. auto.
  - destruct ws'; auto.
  - destruct ws, hov; auto.
Qed.

Lemma rest_run evs :
  Forall (fun de => stays p (snd de)) evs ->
  forall st, __current_pos st = p -> __sent_pos st = p ->
             moves (snd (run evs st)) = [].
Proof.
  intros Hevs. induction Hevs as [| [img ev] evs Hev _ IH];
    intros st Hc Hs; simpl.
  - reflexivity.
  - pose proof (rest_dispatch img ev st Hc Hs Hev) as D.
    destruct (dispatch img ev st) as [[st1 tr] |].
    + destruct D as (Hc1 & Hs1 & Hm).
      specialize (IH st1 Hc1 Hs1).
      destruct (run evs st1) as [st2 tr2]. simpl in *.
      rewrite moves_app, Hm, IH. reflexivity.
    + apply IH; assumption.
Qed.

End Rest.

Lemma int16_of_Z r : -32768 <= r <= 32767 -> int16 (of_Z r) = true.
Proof.
  intros [L U]. unfold int16, of_Z, inject_Z. simpl.
  destruct (Z.leb_spec (-32768) r); [| lia].
  destruct (Z.leb_spec r 32767); [reflexivity | lia].
Qed.

(** ** The model of numbers against the kernel's floats *)

Example scaled_agree :
  all_pairs scaled_agrees [0; 1; 5; 299; 300; 400; 799; 900]
            [1; 3; 6; 7; 600; 800; 1080] = true.
Proof. vm_compute. reflexivity. Qed.

Example extremes_agree :
  PrimFloat.eqb (to_float (fl (Qmake 1 (Z.to_pos (2 ^ 1075)))))
                PrimFloat.zero = true /\
  PrimFloat.eqb (to_float (fl (Qmake 3 (Z.to_pos (2 ^ 1075)))))
                (FloatOps.Z.ldexp (float_of_Z 3) (-1075)) = true /\
  PrimFloat.eqb (to_float (fl (inject_Z (2 ^ 1024))))
                PrimFloat.infinity = true /\
  PrimFloat.eqb (to_float (mul (of_Z (2 ^ 53 - 1)) (of_Z (2 ^ 53 - 1))))
                (PrimFloat.mul (float_of_Z (2 ^ 53 - 1))
                               (float_of_Z (2 ^ 53 - 1))) = true /\
  PrimFloat.eqb (to_float (add (of_Z (2 ^ 53)) (of_Z 1)))
                (PrimFloat.add (float_of_Z (2 ^ 53)) (float_of_Z 1)) = true /\
  PrimFloat.eqb (to_float (add (of_Z (2 ^ 53)) (of_Z 3)))
                (PrimFloat.add (float_of_Z (2 ^ 53)) (float_of_Z 3)) = true.
Proof. vm_compute. repeat split; reflexivity. Qed.

(** ** The coordinate normalizer *)

(** C1: for every value and every viewport extent, the call
    [__translate(value, 0, extent, -32768, 32767)] that [__sendMove] makes
    per axis computes
    [round((value - 0) / (extent - 0) * (32767 - (-32768)) + (-32768))],
    and a transmitted [mouse_move] carries exactly these two values. *)
Theorem normalize_refines_spec :
  (forall (value : number) (viewportExtent : Z),
      normalize value viewportExtent
      = normalize_spec value (of_Z viewportExtent)) /\
  (forall (img : StreamImage) (st : Mouse),
      sent (snd (__sendMove img st))
      = deliver (__ws st)
          (if moved (__current_pos st) (__sent_pos st)
           then [mouse_move
                   {| x := normalize_spec (x (__current_pos st))
                                          (of_Z (clientWidth img));
                      y := normalize_spec (y (__current_pos st))
                                          (of_Z (clientHeight img)) |}]
           else [])).
Proof.
  split.
  - intros value viewportExtent. reflexivity.
  - intros img st. apply sendMove_sent.
Qed.

(** C2, as stated, fails: with the pointer 900 pixels into a target that
    is wider than the 800 pixel stream image, the flush transmits
    [x = 40959], outside the 16-bit signed range. *)
Lemma flush_beyond_image_leaves_int16 :
  ~ in_int16 (snd (run pointer_right_of_image Mouse_init)).
Proof.
  intros H.
  destruct (H (mkPoint (of_Z 40959) (of_Z 0))) as [Hx _].
  - vm_compute. left. reflexivity.
  - vm_compute in Hx. discriminate.
Qed.

(** C2, amended: [__translate] does not clamp; for a pixel position inside
    the stream image, [0 <= p <= extent] on each axis with a positive
    extent, each coordinate of the [to] value of a transmitted move is an
    integer of [-32768, 32767]. *)
Theorem flush_within_image_in_int16 :
  forall (img : StreamImage) (st : Mouse) (px py : Z),
    __current_pos st = at_pixel px py ->
    0 <= px <= clientWidth img -> 0 <= py <= clientHeight img ->
    0 < clientWidth img <= MAX_SAFE_INTEGER ->
    0 < clientHeight img <= MAX_SAFE_INTEGER ->
    in_int16 (snd (__sendMove img st)).
Proof.
  intros img st px py Hcur Hx Hy Hw Hh to Hin.
  rewrite sendMove_sent in Hin. rewrite Hcur in Hin.
  assert (E : to = normalized img (at_pixel px py)).
  { destruct (__ws st), (moved _ _); simpl in Hin; try contradiction.
    destruct Hin as [E | []]. congruence. }
  subst to. unfold normalized, at_pixel; simpl.
  destruct (normalize_range px (clientWidth img) Hx Hw) as (rx & Ex & Rx).
  destruct (normalize_range py (clientHeight img) Hy Hh) as (ry & Ey & Ry).
  rewrite Ex, Ey. split; apply int16_of_Z; assumption.
Qed.

Lemma flush_within_image_in_int16_witness :
  let st := mkMouse (Some (socket 0)) (at_pixel 799 599) (at_pixel 0 0) true in
  __current_pos st = at_pixel 799 599 /\
  0 <= 799 <= clientWidth stream_800_600 /\
  0 <= 599 <= clientHeight stream_800_600 /\
  0 < clientWidth stream_800_600 <= MAX_SAFE_INTEGER /\
  0 < clientHeight stream_800_600 <= MAX_SAFE_INTEGER /\
  in_int16 (snd (__sendMove stream_800_600 st)).
Proof.
  intros st.
  assert (Hx : 0 <= 799 <= clientWidth stream_800_600) by (simpl; lia).
  assert (Hy : 0 <= 599 <= clientHeight stream_800_600) by (simpl; lia).
  assert (Hw : 0 < clientWidth stream_800_600 <= MAX_SAFE_INTEGER)
    by (unfold MAX_SAFE_INTEGER; simpl; lia).
  assert (Hh : 0 < clientHeight stream_800_600 <= MAX_SAFE_INTEGER)
    by (unfold MAX_SAFE_INTEGER; simpl; lia).
  repeat (split; [solve [reflexivity | assumption] |]).
  exact (flush_within_image_in_int16 stream_800_600 st 799 599
           eq_refl Hx Hy Hw Hh).
Defined.

(** C3, as stated, fails: over a stream image of width and height 0 the
    flush is not skipped and the division by zero is performed; the move
    that is transmitted carries [Infinity] on both axes. *)
Lemma flush_on_collapsed_image_divides_by_zero :
  ~ finite_moves (snd (run pointer_over_collapsed_image Mouse_init)).
Proof.
  intros H.
  destruct (H (mkPoint (Infinity false) (Infinity false))) as [Hx _].
  - vm_compute. left. reflexivity.
  - discriminate.
Qed.

(** C3, amended: there is no guard.  When the position changed, the move
    is handed to the channel whatever the extents are; on an axis whose
    extent is 0 its coordinate is not a finite number: NaN for pixel 0,
    [+Infinity] for a positive and [-Infinity] for a negative pixel. *)
Theorem zero_extent_is_not_guarded :
  forall (img : StreamImage) (st : Mouse),
    moved (__current_pos st) (__sent_pos st) = true ->
    let to := normalized img (__current_pos st) in
    sent (snd (__sendMove img st)) = deliver (__ws st) [mouse_move to] /\
    (clientWidth img = 0 ->
     is_finite (x to) = false /\
     forall p, x (__current_pos st) = of_Z p ->
               x to = if p =? 0 then NaN else Infinity (p <? 0)) /\
    (clientHeight img = 0 ->
     is_finite (y to) = false /\
     forall p, y (__current_pos st) = of_Z p ->
               y to = if p =? 0 then NaN else Infinity (p <? 0)).
Proof.
  intros img st Hm to. subst to. split; [| split].
  - rewrite sendMove_sent, Hm. reflexivity.
  - intros Hw. unfold normalized; cbn [x]. rewrite Hw. split.
    + apply normalize_no_extent.
    + intros p Hp. rewrite Hp. apply normalize_pixel_no_extent.
  - intros Hh. unfold normalized; cbn [y]. rewrite Hh. split.
    + apply normalize_no_extent.
    + intros p Hp. rewrite Hp. apply normalize_pixel_no_extent.
Qed.

Lemma zero_extent_is_not_guarded_witness :
  let st := mkMouse (Some (socket 0)) (at_pixel 5 0) (at_pixel 0 0) true in
  moved (__current_pos st) (__sent_pos st) = true /\
  sent (snd (__sendMove stream_collapsed st))
  = [mouse_move (mkPoint (Infinity false) NaN)].
Proof.
  intros st.
  destruct (zero_extent_is_not_guarded stream_collapsed st eq_refl)
    as (A & B & C).
  split; [reflexivity |].
  destruct (B eq_refl) as [_ Bx]. destruct (C eq_refl) as [_ Cy].
  specialize (Bx 5 eq_refl). specialize (Cy 0 eq_refl).
  rewrite A. cbn [deliver st __ws].
  destruct (normalized stream_collapsed (__current_pos st)) as [tx ty].
  cbn [x y] in Bx, Cy. rewrite Bx, Cy. reflexivity.
Defined.

(** C9, as stated, fails: on an 800 pixel extent the last pixel, 799,
    normalizes to 32685, which is 82 below 32767. *)
Lemma last_pixel_of_800_falls_short : ~ last_pixel_is_maximum 800.
Proof.
  intros (r & E & R). vm_compute in E. injection E as E. lia.
Qed.

(** C9, amended: for every extent > 0, [normalize(0, extent) = -32768] and
    [normalize(extent, extent) = 32767], so the top of the range belongs to
    [extent], not to [extent - 1]; [normalize(extent - 1, extent)] is an
    integer of [-32768, 32767], 32685 for the extent 800; and on an 800x600
    viewport the pixel (400,300) normalizes to (0,0). *)
Theorem normalize_endpoints :
  forall e : Z,
    0 < e <= MAX_SAFE_INTEGER ->
    normalize (of_Z 0) e = of_Z (-32768) /\
    normalize (of_Z e) e = of_Z 32767 /\
    (exists r, normalize (of_Z (e - 1)) e = of_Z r /\ -32768 <= r <= 32767) /\
    normalize (of_Z 799) 800 = of_Z 32685 /\
    normalized stream_800_600 (at_pixel 400 300) = at_pixel 0 0.
Proof.
  intros e He. split; [| split; [| split; [| split]]].
  - apply normalize_origin. lia.
  - apply normalize_extent. exact He.
  - apply normalize_range; lia.
  - vm_compute. reflexivity.
  - vm_compute. reflexivity.
Qed.

Lemma normalize_endpoints_witness :
  0 < 800 <= MAX_SAFE_INTEGER /\
  normalize (of_Z 0) 800 = of_Z (-32768) /\
  normalize (of_Z 800) 800 = of_Z 32767.
Proof.
  assert (H : 0 < 800 <= MAX_SAFE_INTEGER) by (unfold MAX_SAFE_INTEGER; lia).
  split; [exact H |].
  destruct (normalize_endpoints 800 H) as (A & B & _).
  split; assumption.
Defined.

(** ** The move throttler *)

(** C4, as stated, fails twice.  Without a socket a flush transmits
    nothing although the pointer differs from the last sent position; and
    with a socket, two motion updates that end where the pointer was last
    sent are followed by a tick that transmits no move at all. *)
Lemma flush_is_silent_offline_and_after_a_round_trip :
  ~ flush_sends_iff_moved stream_800_600 offline_moved /\
  ~ burst_sends_once stream_800_600 [(stream_800_600, motion 5 5)]
      (stream_800_600, motion 0 0) online_idle.
Proof.
  split.
  - intros [_ H]. rewrite offline_moved_state in H.
    destruct (H ltac:(discriminate)) as [to E]. discriminate E.
  - intros [to E]. vm_compute in E. discriminate E.
Qed.

(** C4, amended: on every flush, tick or forced, a move is transmitted if
    and only if the pointer differs from the last sent position and the
    channel is present, and it carries the normalized current position; a
    second flush right after a flush does nothing; and any burst of raw
    motion updates followed by a tick yields at most one move, namely
    the position of the last update when that differs from the last sent
    position and the channel is present.  [history] is what happened to
    the module since it was constructed. *)
Theorem flush_sends_iff_moved_and_connected :
  forall (history : list (StreamImage * event)) (img : StreamImage),
    let st := fst (run history Mouse_init) in
    ((exists to, sent (snd (__sendMove img st)) = [mouse_move to])
     <-> __current_pos st <> __sent_pos st /\ __ws st <> None) /\
    (sent (snd (__sendMove img st)) = [] \/
     sent (snd (__sendMove img st))
     = [mouse_move (normalized img (__current_pos st))]) /\
    (forall img', snd (__sendMove img' (fst (__sendMove img st))) = []) /\
    (forall es e,
        let p := __current_pos (__moveHandler (snd e) st) in
        sent (snd (run (motions (es ++ [e]) ++ [(img, tick)]) st))
        = deliver (__ws st)
            (if moved p (__sent_pos st)
             then [mouse_move (normalized img p)] else [])).
Proof.
  intros history img st.
  pose proof (reachable_settled history) as Hs. fold st in Hs.
  unfold settled in Hs. apply andb_true_iff in Hs as [Hc Hp].
  pose proof (moved_pixels _ _ Hc Hp) as M.
  split; [| split; [| split]].
  - rewrite sendMove_sent. split.
    + intros [to E].
      destruct (moved (__current_pos st) (__sent_pos st)) eqn:Em.
      * split; [apply M; reflexivity |].
        intros W. rewrite W in E. discriminate.
      * rewrite deliver_nil in E. discriminate.
    + intros [N W]. apply M in N. rewrite N.
      destruct (__ws st); [| contradiction].
      eexists. reflexivity.
  - rewrite sendMove_sent.
    destruct (__ws st), (moved _ _); simpl; auto.
  - intros img'. rewrite sendMove_state.
    destruct (moved (__current_pos st) (__sent_pos st)) eqn:E.
    + unfold __sendMove; simpl. rewrite (moved_same _ Hc). reflexivity.
    + unfold __sendMove. rewrite E. reflexivity.
  - intros es e p. rewrite run_app, run_motions, run_tick.
    cbn [snd app]. rewrite sendMove_sent. reflexivity.
Qed.

Lemma flush_sends_iff_moved_and_connected_witness :
  (exists to, sent (snd (__sendMove stream_800_600 online_moved))
              = [mouse_move to]) /\
  (forall img',
      snd (__sendMove img' (fst (__sendMove stream_800_600 online_moved)))
      = []).
Proof.
  destruct (flush_sends_iff_moved_and_connected after_connecting
              stream_800_600) as (S & _ & T & _).
  split; [| exact T].
  apply S. fold online_moved. rewrite online_moved_state.
  split; discriminate.
Defined.

(** C10: with the channel absent and the pointer away from the last sent
    position, a flush still records the current position as sent and
    transmits nothing; once a channel is set, no event that leaves the
    pointer where it is makes the module transmit a move, so that position
    is not sent until the pointer changes again. *)
Theorem offline_flush_consumes_the_change :
  forall (history : list (StreamImage * event)) (img : StreamImage),
    let st := fst (run history Mouse_init) in
    __ws st = None ->
    __current_pos st <> __sent_pos st ->
    __sendMove img st = (set_sent_pos (__current_pos st) st, []) /\
    (forall (w : WebSocket) (img' : StreamImage)
            (evs : list (StreamImage * event)),
        Forall (fun de => stays (__current_pos st) (snd de)) evs ->
        moves (snd (run ((img', call_setSocket (Some w)) :: evs)
                        (fst (__sendMove img st)))) = []).
Proof.
  intros history img st Hws Hne.
  pose proof (reachable_settled history) as Hs. fold st in Hs.
  unfold settled in Hs. apply andb_true_iff in Hs as [Hc Hp].
  apply (moved_pixels _ _ Hc Hp) in Hne.
  assert (E : __sendMove img st = (set_sent_pos (__current_pos st) st, [])).
  { unfold __sendMove. rewrite Hne, Hws. reflexivity. }
  split; [exact E |].
  intros w img' evs Hevs. rewrite E. cbn [fst].
  apply (rest_run (__current_pos st) Hc); try reflexivity.
  constructor; [exact I | exact Hevs].
Qed.

Lemma offline_flush_consumes_the_change_witness :
  __ws offline_moved = None /\
  __current_pos offline_moved <> __sent_pos offline_moved /\
  __sendMove stream_800_600 offline_moved
  = (set_sent_pos (__current_pos offline_moved) offline_moved, []) /\
  moves (snd (run [ (stream_800_600, call_setSocket (Some (socket 0)));
                    (stream_800_600, tick);
                    (stream_800_600, onmousedown (motion 5 5));
                    (stream_800_600, tick) ]
                  (fst (__sendMove stream_800_600 offline_moved)))) = [].
Proof.
  assert (W : __ws offline_moved = None)
    by (rewrite offline_moved_state; reflexivity).
  assert (N : __current_pos offline_moved <> __sent_pos offline_moved)
    by (rewrite offline_moved_state; discriminate).
  destruct (offline_flush_consumes_the_change before_connecting
              stream_800_600 W N) as [A B].
  split; [exact W |]. split; [exact N |].
  split; [exact A |].
  apply B. repeat constructor.
Defined.

(** ** The pointer sampler *)

(** C5, as stated, fails: without a socket a press of the left button
    with a pending position change transmits nothing, not two messages. *)
Lemma offline_button_sends_nothing :
  ~ button_flushes_then_sends stream_800_600 (motion 5 5) true offline_moved.
Proof.
  unfold button_flushes_then_sends. rewrite offline_moved_state. intros H.
  specialize (H "left" eq_refl ltac:(discriminate)). discriminate H.
Qed.

(** C5, amended: for every press or release of a recognized button (codes
    0 and 2) with a pending position change, the handler hands to the
    channel, when it is present, exactly two messages: first the
    [mouse_move] of the current position, then the [mouse_button]; with the
    channel absent it transmits nothing.  Either way the position counts
    as sent afterwards. *)
Theorem button_flushes_then_sends_when_connected :
  forall (history : list (StreamImage * event)) (img : StreamImage)
         (event : MouseEvent) (state : bool) (name : string),
    let st := fst (run history Mouse_init) in
    button_name (button event) = Some name ->
    __current_pos st <> __sent_pos st ->
    sent (snd (__buttonHandler img event state st))
    = deliver (__ws st)
        [mouse_move (normalized img (__current_pos st));
         mouse_button name state] /\
    __sent_pos (fst (__buttonHandler img event state st)) = __current_pos st.
Proof.
  intros history img event state name st Hn Hne.
  pose proof (reachable_settled history) as Hs. fold st in Hs.
  unfold settled in Hs. apply andb_true_iff in Hs as [Hc Hp].
  apply (moved_pixels _ _ Hc Hp) in Hne. split.
  - rewrite (buttonHandler_sent img event state st name Hn), Hne. reflexivity.
  - unfold __buttonHandler. rewrite Hn.
    pose proof (sendMove_state img st) as S. rewrite Hne in S.
    destruct (__sendMove img st) as [st1 tr]. simpl in *. subst st1.
    reflexivity.
Qed.

Lemma button_flushes_then_sends_when_connected_witness :
  button_name (button (motion 5 5)) = Some "left" /\
  __current_pos online_moved <> __sent_pos online_moved /\
  sent (snd (__buttonHandler stream_800_600 (motion 5 5) true online_moved))
  = [mouse_move (normalized stream_800_600 (at_pixel 5 5));
     mouse_button "left" true].
Proof.
  assert (N : __current_pos online_moved <> __sent_pos online_moved)
    by (rewrite online_moved_state; discriminate).
  split; [reflexivity |]. split; [exact N |].
  apply (button_flushes_then_sends_when_connected after_connecting
           stream_800_600 (motion 5 5) true "left" eq_refl N).
Defined.

(** C6, as stated, fails: a second tap on the point of the first one
    transmits the press of the left button only, without a move. *)
Lemma second_tap_at_same_point_sends_no_move :
  ~ touchstart_moves_then_presses stream_800_600
      {| touch_clientX := inject_Z 10; touch_clientY := inject_Z 10;
         touch_target_rect := {| left := inject_Z 0; top := inject_Z 0 |} |}
      [] tapped_once.
Proof.
  intros (st' & tr & E & _ & S).
  vm_compute in E. injection E as _ Etr. subst tr.
  discriminate S.
Qed.

(** C6, amended: a touch-start at a point sets the pointer position to
    that point and hands to the channel, when present, a move for the
    point only if the point differs from the last sent position, followed
    by the press of the left button; a touch-end leaves the state alone
    and hands to the channel the release of the left button only. *)
Theorem touch_sends :
  forall (img : StreamImage) (st : Mouse),
    (forall (t : Touch) (rest : list Touch),
        let p := offset (touch_clientX t) (touch_clientY t)
                        (touch_target_rect t) in
        exists st' tr,
          __touchHandler img {| touches := t :: rest |} true st
          = Some (st', tr) /\
          __current_pos st' = p /\
          sent tr
          = deliver (__ws st)
              ((if moved p (__sent_pos st)
                then [mouse_move (normalized img p)] else [])
               ++ [mouse_button "left" true])) /\
    (forall (event : TouchEvent),
        exists tr,
          __touchHandler img event false st = Some (st, tr) /\
          sent tr = deliver (__ws st) [mouse_button "left" false]).
Proof.
  intros img st. split.
  - intros t rest p. unfold __touchHandler. cbn [touches].
    fold p.
    pose proof (sendMove_sent img (set_current_pos p st)) as S.
    pose proof (sendMove_ws img (set_current_pos p st)) as W.
    pose proof (sendMove_current img (set_current_pos p st)) as C.
    destruct (__sendMove img (set_current_pos p st)) as [st1 tr].
    simpl in S, W, C.
    eexists. eexists. split; [reflexivity |]. split; [exact C |].
    autorewrite with trace. rewrite S, W. simpl.
    rewrite app_nil_r. reflexivity.
  - intros event. unfold __touchHandler.
    eexists. split; [reflexivity |].
    simpl. autorewrite with trace. simpl. apply app_nil_r.
Qed.

(** C7: for every native button code other than 0 and 2 the button
    handler leaves the state as it is and performs no effect at all: no
    message, no [preventDefault]; code 0 is "left" and code 2 is
    "right". *)
Theorem other_buttons_are_ignored :
  forall (img : StreamImage) (event : MouseEvent) (state : bool) (st : Mouse),
    button event <> 0 -> button event <> 2 ->
    __buttonHandler img event state st = (st, []) /\
    button_name 0 = Some "left" /\ button_name 2 = Some "right".
Proof.
  intros img event state st H0 H2. split; [| split; reflexivity].
  unfold __buttonHandler, button_name.
  destruct (button event) as [| p | p]; [contradiction | | reflexivity].
  destruct p as [p | p |]; try reflexivity.
  destruct p; try reflexivity. contradiction.
Qed.

Lemma other_buttons_are_ignored_witness :
  let middle := {| button := 1; clientX := inject_Z 5; clientY := inject_Z 5;
                   target_rect := {| left := inject_Z 0;
                                     top := inject_Z 0 |} |} in
  let st := mkMouse (Some (socket 0)) (at_pixel 5 5) (at_pixel 0 0) true in
  button middle <> 0 /\ button middle <> 2 /\
  __buttonHandler stream_800_600 middle true st = (st, []).
Proof.
  intros middle st.
  split; [discriminate |]. split; [discriminate |].
  apply (other_buttons_are_ignored stream_800_600 middle true st);
    discriminate.
Defined.

(** C8: with the channel absent every handler (the flush, the button, the
    wheel and the touch handlers among them) transmits nothing; it fails
    only where it would fail with a channel (a touch-start without a
    contact point); and it leaves the state it would leave had the
    message been delivered, so nothing is kept for a later retry. *)
Theorem absent_channel_is_silent :
  forall (img : StreamImage) (ev : event) (st : Mouse),
    __ws st = None -> (forall ws, ev <> call_setSocket ws) ->
    (forall r, dispatch img ev st = Some r ->
               sent (snd r) = [] /\ __ws (fst r) = None) /\
    (forall w,
        option_map (fun r => set_ws None (fst r))
                   (dispatch img ev (set_ws (Some w) st))
        = option_map fst (dispatch img ev st)) /\
    (dispatch img ev st = None ->
     exists e, ev = ontouchstart e /\ touches e = []).
Proof.
  intros img ev [ws cur snt hov] Hws Hev. simpl in Hws. subst ws.
  destruct ev as [| | e | e | | e | e | e | e | | ws |];
    try (exfalso; apply (Hev ws); reflexivity).
  all: split; [intros r Hr | split; [intros w | intros Hn]].
  all: try (injection Hr as <-).
  all: try discriminate Hn.
  all: unfold dispatch, __hoverStream, __leaveStream, __buttonHandler,
         __wheelHandler, __touchHandler, __sendMove, __moveHandler,
         updateLeds, set_ws, set_sent_pos, set_current_pos,
         set_stream_hovered in *;
       cbn [__ws __current_pos __sent_pos __stream_hovered fst snd] in *.
  all: try (destruct (button_name (button e))).
  all: try (destruct (touches e) as [| t ts] eqn:Et).
  all: try discriminate.
  all: try (destruct (moved _ snt)).
  all: try (destruct (has_preventDefault e)).
  all: try (injection Hr as <-).
  all: try (split; reflexivity).
  all: try reflexivity.
  all: try discriminate Hn.
  exists e. split; [reflexivity | exact Et].
Qed.

Lemma absent_channel_is_silent_witness :
  __ws offline_moved = None /\
  (forall ws, tick <> call_setSocket ws) /\
  (forall r, dispatch stream_800_600 tick offline_moved = Some r ->
             sent (snd r) = [] /\ __ws (fst r) = None).
Proof.
  assert (W : __ws offline_moved = None)
    by (rewrite offline_moved_state; reflexivity).
  split; [exact W |]. split; [discriminate |].
  apply (absent_channel_is_silent stream_800_600 tick offline_moved W).
  discriminate.
Defined.

(** ** More about the arithmetic and the handlers *)

(** *** Integers below 2^53 are binary64 values *)

Lemma round_half_even_multiple k d : 0 < d -> round_half_even (k * d) d = k.
Proof.
  intros Hd. unfold round_half_even.
  rewrite Z.div_mul by lia. rewrite Z.mod_mul by lia.
  destruct (Z.compare_spec (2 * 0) d); lia.
Qed.

Lemma fl_pos_grid a :
  0 < a <= MAX_SAFE_INTEGER -> fl_pos (a * quantum) 1 = a * quantum.
Proof.
  intros [A0 A1]. unfold fl_pos.
  pose proof quantum_pos as Qp.
  destruct (shift_spec (a * quantum) 1 ltac:(nia) ltac:(lia)) as (S0 & _ & L).
  set (s := shift (a * quantum) 1) in *.
  assert (Hs : s <= 1074).
  { destruct (Z.le_gt_cases s 1074) as [H | H]; [exact H | exfalso].
    specialize (L ltac:(lia)).
    pose proof (pow2_le 1127 (s + 52) ltac:(lia)) as P.
    assert (a * quantum < 2 ^ 53 * quantum).
    { apply Z.mul_lt_mono_pos_r; [exact Qp |].
      unfold MAX_SAFE_INTEGER in A1. lia. }
    replace (2 ^ 53 * quantum) with (2 ^ 1127) in H0
      by (unfold quantum; rewrite <- Z.pow_add_r by lia; reflexivity).
    lia. }
  assert (E : quantum = 2 ^ (1074 - s) * 2 ^ s).
  { unfold quantum. rewrite <- Z.pow_add_r by lia. f_equal. lia. }
  pose proof (pow2_pos s S0) as Ps.
  rewrite Z.mul_1_l, E, Z.mul_assoc.
  rewrite round_half_even_multiple by exact Ps. reflexivity.
Qed.

Lemma fl_exact_int z :
  Z.abs z <= MAX_SAFE_INTEGER -> fl (inject_Z z) = of_Z z.
Proof.
  intros Hz. unfold fl.
  rewrite (Qcanon.Qred_identity (inject_Z z)) by (simpl; apply Z.gcd_1_r).
  cbn [Qnum Qden inject_Z].
  destruct (Z.eqb_spec z 0) as [-> | N]; [reflexivity |].
  rewrite fl_pos_grid by lia.
  pose proof quantum_pos as Qp.
  destruct (Z.leb_spec overflow (Z.abs z * quantum)) as [O | _].
  - exfalso.
    assert (Z.abs z * quantum < 2 ^ 53 * quantum).
    { apply Z.mul_lt_mono_pos_r; [exact Qp |].
      unfold MAX_SAFE_INTEGER in Hz. lia. }
    replace (2 ^ 53 * quantum) with (2 ^ 1127) in H
      by (unfold quantum; rewrite <- Z.pow_add_r by lia; reflexivity).
    pose proof (pow2_le 1127 2098 ltac:(lia)). unfold overflow in O. lia.
  - unfold of_Z. f_equal.
    transitivity (Qred (inject_Z z)).
    + apply Qred_complete. unfold Qeq, inject_Z; cbn [Qnum Qden].
      rewrite Z2Pos.id by exact Qp.
      rewrite Z.mul_assoc, (Z.mul_comm (Z.sgn z)), Z.abs_sgn. ring.
    + apply Qcanon.Qred_identity. simpl. apply Z.gcd_1_r.
Qed.

(** *** The stored position stays inside the integer bracket of the offset *)

Lemma Qfloor_half z : Qfloor (inject_Z z + (1 # 2)) = z.
Proof.
  unfold Qfloor, Qplus, inject_Z; cbn [Qnum Qden].
  change (Z.pos (1 * 2)) with 2. rewrite Z.mul_1_l.
  replace (z * 2 + 1) with (1 + z * 2) by ring.
  rewrite Z.div_add by lia. reflexivity.
Qed.

Lemma round_offset_bracket (c l : Q) (a b : Z) :
  Z.abs a <= MAX_SAFE_INTEGER -> Z.abs b <= MAX_SAFE_INTEGER ->
  (inject_Z a <= c - l)%Q -> (c - l <= inject_Z b)%Q ->
  exists z, Math_round (sub (Fin c) (Fin l)) = of_Z z /\ a <= z <= b.
Proof.
  intros Ha Hb La Ub. unfold sub, neg, add.
  destruct (fl_between _ _ _ _ (c + - l)%Q (fl_exact_int a Ha)
              (fl_exact_int b Hb) La Ub) as (r & E & L & U).
  rewrite E. unfold Math_round. eexists. split; [reflexivity |].
  assert (A : (inject_Z a + (1 # 2) <= r + (1 # 2))%Q)
    by (apply Qplus_le_l; exact L).
  assert (B : (r + (1 # 2) <= inject_Z b + (1 # 2))%Q)
    by (apply Qplus_le_l; exact U).
  apply Qfloor_resp_le in A. apply Qfloor_resp_le in B.
  rewrite Qfloor_half in A, B. lia.
Qed.

(** *** Each step of [__translate] preserves the order *)

Lemma fl_step_mono (g : Q -> Q) (a a' : number) :
  (forall p q, (p <= q)%Q -> (g p <= g q)%Q) ->
  le a a' ->
  le (match a with Fin p => fl (g p) | _ => a end)
     (match a' with Fin p => fl (g p) | _ => a' end).
Proof.
  intros Hg H.
  destruct a as [| [|] | p], a' as [| [|] | q]; cbv [le] in H;
    try contradiction; try exact I.
  - pose proof (fl_defined (g q)) as D.
    destruct (fl (g q)) as [| [|] | r]; [contradiction | exact I ..].
  - pose proof (fl_defined (g p)) as D.
    destruct (fl (g p)) as [| [|] | r]; [contradiction | exact I ..].
  - apply fl_mono, Hg, H.
Qed.

Lemma div_by_positive a b :
  (0 < b)%Q ->
  div a (Fin b) = match a with Fin p => fl (p / b) | _ => a end.
Proof.
  intros Hb. destruct a as [| s | p]; unfold div.
  - reflexivity.
  - replace (Qneg b) with false. { destruct s; reflexivity. }
    unfold Qneg. unfold Qlt in Hb; simpl in Hb.
    destruct (Z.ltb_spec (Qnum b) 0); [lia | reflexivity].
  - rewrite (Qzero_false b Hb). reflexivity.
Qed.

Lemma mul_by_65535 a :
  mul a (Fin (inject_Z 65535))
  = match a with Fin p => fl (p * inject_Z 65535) | _ => a end.
Proof. destruct a as [| [|] | p]; reflexivity. Qed.

Lemma add_constant a c :
  add a (Fin c) = match a with Fin p => fl (p + c) | _ => a end.
Proof. destruct a as [| [|] | p]; reflexivity. Qed.

Lemma Math_round_mono a a' : le a a' -> le (Math_round a) (Math_round a').
Proof.
  destruct a as [| [|] | p], a' as [| [|] | q]; cbv [le Math_round of_Z];
    intros H; try contradiction; try exact I.
  rewrite <- Zle_Qle. apply Qfloor_resp_le.
  apply Qplus_le_l. exact H.
Qed.

Lemma normalize_mono e p p' :
  0 < e <= MAX_SAFE_INTEGER -> p <= p' ->
  le (normalize (of_Z p) e) (normalize (of_Z p') e).
Proof.
  intros He Hp. destruct (extent_finite e He) as (b & Eb & B1).
  assert (Bp : (0 < b)%Q) by (eapply Qlt_le_trans; [| exact B1]; reflexivity).
  unfold normalize, __translate. rewrite !sub_of_Z_0, span, Eb.
  rewrite !(div_by_positive _ b Bp), !mul_by_65535.
  unfold of_Z. rewrite !add_constant.
  apply Math_round_mono.
  apply (fl_step_mono (fun q => q + inject_Z (-32768))%Q).
  { intros u v H. apply Qplus_le_l. exact H. }
  apply (fl_step_mono (fun q => q * inject_Z 65535)%Q).
  { intros u v H. apply Qmult_le_compat_r; [exact H | discriminate]. }
  apply (fl_step_mono (fun q => q / b)%Q).
  { intros u v H. unfold Qdiv. apply Qmult_le_compat_r; [exact H |].
    apply Qlt_le_weak, Qinv_lt_0_compat. exact Bp. }
  apply fl_mono. rewrite <- Zle_Qle. exact Hp.
Qed.

(** *** Runs, event by event *)

Lemma run_cons img ev evs st :
  run ((img, ev) :: evs) st
  = match dispatch img ev st with
    | Some (st1, tr) => (fst (run evs st1), tr ++ snd (run evs st1))
    | None => run evs st
    end.
Proof.
  simpl. destruct (dispatch img ev st) as [[st1 tr] |]; [| reflexivity].
  destruct (run evs st1); reflexivity.
Qed.

(** Case analysis over the handlers and the tests they make. *)
Ltac handlers :=
  unfold dispatch, __hoverStream, __leaveStream, __buttonHandler,
    __wheelHandler, __touchHandler, __sendMove, __moveHandler, updateLeds,
    setSocket, send, set_ws, set_sent_pos, set_current_pos,
    set_stream_hovered in *;
  cbn [__ws __current_pos __sent_pos __stream_hovered fst snd] in *;
  repeat match goal with
    | H : context [button_name ?c] |- _ => destruct (button_name c)
    | |- context [button_name ?c] => destruct (button_name c)
    | H : context [touches ?e] |- _ => destruct (touches e)
    | |- context [touches ?e] => destruct (touches e)
    | H : context [moved ?p ?q] |- _ => destruct (moved p q)
    | |- context [moved ?p ?q] => destruct (moved p q)
    | H : context [has_preventDefault ?e] |- _ =>
        destruct (has_preventDefault e)
    | |- context [has_preventDefault ?e] => destruct (has_preventDefault e)
    end;
  cbn [__ws __current_pos __sent_pos __stream_hovered fst snd app] in *.

Lemma sendMove_moves_bound img st : (List.length (moves (snd (__sendMove img st))) <= 1)%nat.
Proof.
  unfold __sendMove. destruct (moved _ _); [| simpl; lia].
  destruct (__ws st); simpl; lia.
Qed.

Lemma sendMove_sends_on_socket img st s m :
  In (ws_send s m) (snd (__sendMove img st)) -> __ws st = Some s.
Proof.
  unfold __sendMove. destruct (moved _ _); [| intros []].
  destruct (__ws st) as [w |]; simpl; [| intros []].
  intros [E | []]. congruence.
Qed.

Lemma send_on_socket ws (m : message) s m' :
  In (ws_send s m') (send ws m) -> ws = Some s.
Proof.
  destruct ws as [w |]; simpl; [| intros []]. intros [E | []]. congruence.
Qed.

Lemma dispatch_sends_on_socket img ev st st' tr s m :
  dispatch img ev st = Some (st', tr) ->
  In (ws_send s m) tr -> __ws st = Some s.
Proof.
  intros D H. destruct st as [ws cur snt hov].
  destruct ev as [| | e | e | | e | e | e | e | | ws' |]; handlers;
    try discriminate D; injection D as <- <-;
    destruct ws as [w |]; try destruct hov; try destruct ws';
    cbn [In app] in H; intuition (try discriminate; congruence).
Qed.

(** Only [setSocket] replaces the socket, only enter and leave set the
    hover flag. *)
Lemma dispatch_frame img ev st st' tr :
  dispatch img ev st = Some (st', tr) ->
  __ws st' = match ev with call_setSocket w => w | _ => __ws st end /\
  __stream_hovered st'
  = match ev with
    | onmouseenter => true
    | onmouseleave => false
    | _ => __stream_hovered st
    end.
Proof.
  intros D. destruct st as [ws cur snt hov].
  destruct ev as [| | e | e | | e | e | e | e | | ws' |]; handlers;
    try discriminate D; injection D as <- <-; split; reflexivity.
Qed.

Lemma dispatch_moves_bound img ev st st' tr :
  dispatch img ev st = Some (st', tr) ->
  (List.length (moves tr) <= if flushing ev then 1 else 0)%nat.
Proof.
  intros D. destruct st as [ws cur snt hov].
  destruct ev as [| | e | e | | e | e | e | e | | ws' |];
    unfold flushing; handlers;
    try discriminate D; injection D as <- <-;
    destruct ws as [w |]; try destruct hov; try destruct ws';
    cbn; lia.
Qed.

(** ** Further properties of the module *)

(** X1: for a positive extent the normalization preserves the order of
    pixel positions; at or beyond the far edge it is at least 32767, at or
    before the near edge at most -32768. *)
Theorem normalize_preserves_order :
  forall e : Z,
    0 < e <= MAX_SAFE_INTEGER ->
    (forall p p', p <= p' ->
                  JS.le (normalize (of_Z p) e) (normalize (of_Z p') e)) /\
    (forall p, e <= p -> JS.le (of_Z 32767) (normalize (of_Z p) e)) /\
    (forall p, p <= 0 -> JS.le (normalize (of_Z p) e) (of_Z (-32768))).
Proof.
  intros e He. split; [| split].
  - intros p p' Hp. apply normalize_mono; assumption.
  - intros p Hp. rewrite <- (normalize_extent e He).
    apply normalize_mono; assumption.
  - intros p Hp. rewrite <- (normalize_origin e) by lia.
    apply normalize_mono; assumption.
Qed.

Lemma normalize_preserves_order_witness :
  0 < 800 <= MAX_SAFE_INTEGER /\
  JS.le (normalize (of_Z 100) 800) (normalize (of_Z 101) 800) /\
  JS.le (of_Z 32767) (normalize (of_Z 900) 800).
Proof.
  assert (H : 0 < 800 <= MAX_SAFE_INTEGER) by (unfold MAX_SAFE_INTEGER; lia).
  destruct (normalize_preserves_order 800 H) as (A & B & _).
  split; [exact H |]. split; [apply A; lia | apply B; lia].
Defined.

(** X2: the position [__moveHandler] stores never leaves the integer
    bracket of the real offset [client - rect]: a pointer inside a box of
    [w] by [h] pixels is stored as integers [0 <= x <= w], [0 <= y <= h]
    (and an integer offset is stored as it is). *)
Theorem motion_in_box_is_stored_in_box :
  forall (event : MouseEvent) (st : Mouse) (ax bx ay by_ : Z),
    Z.abs ax <= MAX_SAFE_INTEGER -> Z.abs bx <= MAX_SAFE_INTEGER ->
    Z.abs ay <= MAX_SAFE_INTEGER -> Z.abs by_ <= MAX_SAFE_INTEGER ->
    (inject_Z ax <= clientX event - left (target_rect event))%Q ->
    (clientX event - left (target_rect event) <= inject_Z bx)%Q ->
    (inject_Z ay <= clientY event - top (target_rect event))%Q ->
    (clientY event - top (target_rect event) <= inject_Z by_)%Q ->
    exists px py,
      __current_pos (__moveHandler event st) = at_pixel px py /\
      ax <= px <= bx /\ ay <= py <= by_.
Proof.
  intros event st ax bx ay by_ Hax Hbx Hay Hby Lx Ux Ly Uy.
  destruct (round_offset_bracket _ _ ax bx Hax Hbx Lx Ux) as (px & Ex & Bx).
  destruct (round_offset_bracket _ _ ay by_ Hay Hby Ly Uy) as (py & Ey & By).
  exists px, py. split; [| split; assumption].
  unfold __moveHandler, set_current_pos, offset, at_pixel; cbn [__current_pos].
  rewrite Ex, Ey. reflexivity.
Qed.

Lemma motion_in_box_is_stored_in_box_witness :
  let event := {| button := 0; clientX := inject_Z 401; clientY := inject_Z 300;
                  target_rect := {| left := 1 # 2; top := inject_Z 0 |} |} in
  exists px py,
    __current_pos (__moveHandler event Mouse_init) = at_pixel px py /\
    400 <= px <= 401 /\ 300 <= py <= 300.
Proof.
  intros event.
  apply (motion_in_box_is_stored_in_box event Mouse_init 400 401 300 300);
    try (unfold MAX_SAFE_INTEGER; simpl; lia);
    unfold Qle; simpl; lia.
Defined.

(** X3: a motion inside a target box that has the size of the stream image,
    followed by a tick, transmits only coordinates of the 16-bit signed
    range, whatever the state was before. *)
Theorem motion_inside_image_sends_int16 :
  forall (event : MouseEvent) (img0 img : StreamImage) (st : Mouse),
    0 < clientWidth img <= MAX_SAFE_INTEGER ->
    0 < clientHeight img <= MAX_SAFE_INTEGER ->
    (0 <= clientX event - left (target_rect event))%Q ->
    (clientX event - left (target_rect event) <= inject_Z (clientWidth img))%Q ->
    (0 <= clientY event - top (target_rect event))%Q ->
    (clientY event - top (target_rect event) <= inject_Z (clientHeight img))%Q ->
    in_int16 (snd (run [(img0, onmousemove event); (img, tick)] st)).
Proof.
  intros event img0 img st Hw Hh Lx Ux Ly Uy.
  destruct (round_offset_bracket (clientX event) (left (target_rect event))
              0 (clientWidth img)) as (px & Ex & Bx);
    try assumption; try (unfold MAX_SAFE_INTEGER in *; lia).
  destruct (round_offset_bracket (clientY event) (top (target_rect event))
              0 (clientHeight img)) as (py & Ey & By);
    try assumption; try (unfold MAX_SAFE_INTEGER in *; lia).
  rewrite run_cons. cbn [dispatch]. rewrite run_tick. cbn [snd app].
  intros to Hin. rewrite sendMove_sent in Hin.
  unfold __moveHandler, set_current_pos, offset in Hin.
  cbn [__current_pos __sent_pos __ws] in Hin. rewrite Ex, Ey in Hin.
  fold (at_pixel px py) in Hin.
  assert (T : to = normalized img (at_pixel px py)).
  { destruct (__ws _), (moved _ _); simpl in Hin; try contradiction.
    destruct Hin as [T | []]. congruence. }
  subst to. unfold normalized, at_pixel; cbn [x y].
  destruct (normalize_range px (clientWidth img) Bx Hw) as (rx & Nx & Rx).
  destruct (normalize_range py (clientHeight img) By Hh) as (ry & Ny & Ry).
  rewrite Nx, Ny. split; apply int16_of_Z; assumption.
Qed.

Lemma motion_inside_image_sends_int16_witness :
  let event := {| button := 0; clientX := 8005 # 10; clientY := inject_Z 650;
                  target_rect := {| left := 1 # 2; top := inject_Z 50 |} |} in
  in_int16 (snd (run [(stream_collapsed, onmousemove event);
                      (stream_800_600, tick)] online_moved)).
Proof.
  intros event.
  apply (motion_inside_image_sends_int16 event stream_collapsed
           stream_800_600 online_moved);
    try (unfold MAX_SAFE_INTEGER; simpl; lia);
    unfold Qle; simpl; lia.
Defined.

(** X4: wheel events are never throttled or coalesced and never flush a
    pending move: a burst of wheel events leaves the state as it was and
    hands to the channel, when present, one [mouse_wheel] per event, in
    order, with the raw deltas. *)
Theorem wheel_burst_is_sent_in_full :
  forall (es : list (StreamImage * WheelEvent)) (st : Mouse),
    fst (run (wheels es) st) = st /\
    sent (snd (run (wheels es) st))
    = deliver (__ws st) (map (fun de => wheel_payload (snd de)) es).
Proof.
  induction es as [| [img e] es IH]; intros st.
  - split; [reflexivity |]. symmetry. apply deliver_nil.
  - unfold wheels. cbn [map fst snd]. rewrite run_cons. cbn [dispatch].
    unfold __wheelHandler. cbn [fst snd]. fold (wheels es).
    destruct (IH st) as [E S]. split; [exact E |].
    rewrite !sent_app, S, sent_send.
    destruct (has_preventDefault e), (__ws st); reflexivity.
Qed.

(** X5: move traffic is bounded by the flushes: a run transmits at most
    one [mouse_move] per tick, recognized button event and touch-start,
    however many motion events it contains. *)
Theorem moves_are_bounded_by_flushes :
  forall (evs : list (StreamImage * event)) (st : Mouse),
    (List.length (moves (snd (run evs st)))
     <= List.length (filter (fun de => flushing (snd de)) evs))%nat.
Proof.
  induction evs as [| [img ev] evs IH]; intros st.
  - simpl. lia.
  - rewrite run_cons. cbn [filter snd].
    destruct (dispatch img ev st) as [[st1 tr] |] eqn:D.
    + cbn [snd]. rewrite moves_app, length_app.
      pose proof (dispatch_moves_bound img ev st st1 tr D) as B.
      specialize (IH st1).
      destruct (flushing ev); cbn [List.length]; lia.
    + specialize (IH st). destruct (flushing ev); cbn [List.length]; lia.
Qed.

(** X6: a message is only ever sent on a socket that was set: the socket
    of the state the run started in, or one handed to [setSocket] during
    the run. *)
Theorem sends_use_a_set_socket :
  forall (evs : list (StreamImage * event)) (st : Mouse)
         (s : WebSocket) (m : message),
    In (ws_send s m) (snd (run evs st)) ->
    __ws st = Some s \/ In (call_setSocket (Some s)) (map snd evs).
Proof.
  induction evs as [| [img ev] evs IH]; intros st s m H.
  - destruct H.
  - rewrite run_cons in H. cbn [map snd In].
    destruct (dispatch img ev st) as [[st1 tr] |] eqn:D.
    + cbn [snd] in H. apply in_app_or in H as [H | H].
      * left. eapply dispatch_sends_on_socket; eassumption.
      * destruct (IH st1 s m H) as [W | I]; [| auto].
        destruct (dispatch_frame img ev st st1 tr D) as [F _].
        rewrite F in W. destruct ev; auto. right. left. congruence.
    + destruct (IH st s m H); auto.
Qed.

Lemma sends_use_a_set_socket_witness :
  In (ws_send (socket 0) (mouse_move (normalized stream_800_600 (at_pixel 5 5))))
     (snd (run (after_connecting ++ [(stream_800_600, tick)]) Mouse_init)) /\
  (__ws Mouse_init = Some (socket 0) \/
   In (call_setSocket (Some (socket 0)))
      (map snd (after_connecting ++ [(stream_800_600, tick)]))).
Proof.
  assert (H : In (ws_send (socket 0)
                    (mouse_move (normalized stream_800_600 (at_pixel 5 5))))
                 (snd (run (after_connecting ++ [(stream_800_600, tick)])
                           Mouse_init))).
  { vm_compute. right. right. left. reflexivity. }
  split; [exact H |].
  exact (sends_use_a_set_socket _ _ _ _ H).
Defined.

(** X7: the socket of the module is the one the last [setSocket] of the
    run gave, and the hover flag tells whether the last enter or leave was
    an enter: no other handler changes either. *)
Theorem socket_and_hover_follow_last_event :
  forall (evs : list (StreamImage * event)) (st : Mouse),
    __ws (fst (run evs st)) = last_socket evs (__ws st) /\
    __stream_hovered (fst (run evs st))
    = last_hover evs (__stream_hovered st).
Proof.
  induction evs as [| [img ev] evs IH]; intros st.
  - split; reflexivity.
  - rewrite run_cons. unfold last_socket, last_hover. cbn [fold_left snd].
    fold (last_socket evs). fold (last_hover evs).
    destruct (dispatch img ev st) as [[st1 tr] |] eqn:D.
    + cbn [fst]. destruct (dispatch_frame img ev st st1 tr D) as [W H].
      rewrite <- W, <- H. apply IH.
    + destruct ev; try discriminate D; apply IH.
Qed.

(** X8: the LED is rewritten only by enter, leave and [updateLeds], once
    each, and then shows "led-on"/"Mouse tracked" exactly when a socket is
    set and the pointer is over the stream; [setSocket] and the other
    handlers do not touch it. *)
Theorem led_shows_tracking :
  forall (img : StreamImage) (ev : event) (st : Mouse),
    match dispatch img ev st with
    | Some (st', tr) =>
        filter is_led tr = if updates_led ev then [led_shown st'] else []
    | None => True
    end.
Proof.
  intros img ev st. destruct st as [ws cur snt hov].
  destruct ev as [| | e | e | | e | e | e | e | | ws' |];
    unfold updates_led, led_shown; handlers;
    try exact I;
    destruct ws as [w |]; try destruct hov; try destruct ws';
    reflexivity.
Qed.

(** X9: both positions start at (0,0), so until the pointer first leaves
    pixel (0,0) the module transmits no move at all, whatever else
    happens: sockets set, ticks, clicks and taps at the origin. *)
Theorem no_move_until_pointer_leaves_origin :
  forall evs : list (StreamImage * event),
    Forall (fun de => stays (at_pixel 0 0) (snd de)) evs ->
    moves (snd (run evs Mouse_init)) = [].
Proof.
  intros evs H.
  apply (rest_run (at_pixel 0 0) eq_refl evs H); reflexivity.
Qed.

Lemma no_move_until_pointer_leaves_origin_witness :
  let evs := [ (stream_800_600, call_setSocket (Some (socket 0)));
               (stream_800_600, onmousemove (motion 0 0));
               (stream_800_600, onmousedown (motion 0 0));
               (stream_800_600, onmouseup (motion 0 0));
               (stream_800_600, tick) ] in
  Forall (fun de => stays (at_pixel 0 0) (snd de)) evs /\
  moves (snd (run evs Mouse_init)) = [].
Proof.
  intros evs.
  assert (H : Forall (fun de => stays (at_pixel 0 0) (snd de)) evs).
  { repeat constructor. }
  split; [exact H |].
  exact (no_move_until_pointer_leaves_origin evs H).
Defined.

(** X10: a position is transmitted once: after any flush, with or without
    a socket, no event that leaves the pointer where it is makes the
    module transmit a move, also when the socket is replaced in between
    (no resynchronization on reconnect). *)
Theorem flushed_position_is_not_resent :
  forall (history : list (StreamImage * event)) (img : StreamImage)
         (evs : list (StreamImage * event)),
    let st := fst (run history Mouse_init) in
    Forall (fun de => stays (__current_pos st) (snd de)) evs ->
    moves (snd (run evs (fst (__sendMove img st)))) = [].
Proof.
  intros history img evs st Hevs.
  pose proof (reachable_settled history) as Hs. fold st in Hs.
  unfold settled in Hs. apply andb_true_iff in Hs as [Hc Hp].
  apply (rest_run (__current_pos st) Hc evs Hevs).
  - apply sendMove_current.
  - rewrite sendMove_state.
    destruct (moved (__current_pos st) (__sent_pos st)) eqn:M;
      [reflexivity |].
    symmetry. apply moved_false; assumption.
Qed.

Lemma flushed_position_is_not_resent_witness :
  let evs := [ (stream_800_600, call_setSocket None);
               (stream_800_600, call_setSocket (Some (socket 1)));
               (stream_800_600, tick);
               (stream_800_600, onmouseup (motion 5 5)) ] in
  Forall (fun de => stays (__current_pos online_moved) (snd de)) evs /\
  moves (snd (run evs (fst (__sendMove stream_800_600 online_moved)))) = [].
Proof.
  intros evs.
  assert (H : Forall (fun de => stays (__current_pos online_moved) (snd de))
                     evs) by (repeat constructor).
  split; [exact H |].
  exact (flushed_position_is_not_resent after_connecting stream_800_600
           evs H).
Defined.

(** X11: a click flushes once: a press and a release of recognized
    buttons with no motion in between hand to the channel, when present,
    the pending move (if the pointer is not where it was last sent), then
    the press, then the release; the release never carries a second move.
    The position is the one the last motion stored, not the coordinates of
    the button events. *)
Theorem click_flushes_once :
  forall (history : list (StreamImage * event)) (img img' : StreamImage)
         (down up : MouseEvent) (pressed released : string),
    let st := fst (run history Mouse_init) in
    button_name (button down) = Some pressed ->
    button_name (button up) = Some released ->
    sent (snd (run [(img, onmousedown down); (img', onmouseup up)] st))
    = deliver (__ws st)
        ((if moved (__current_pos st) (__sent_pos st)
          then [mouse_move (normalized img (__current_pos st))] else [])
         ++ [mouse_button pressed true; mouse_button released false]).
Proof.
  intros history img img' down up pressed released st Hd Hu.
  pose proof (reachable_settled history) as Hs. fold st in Hs.
  unfold settled in Hs. apply andb_true_iff in Hs as [Hc Hp].
  rewrite run_cons. cbn [dispatch].
  pose proof (buttonHandler_sent img down true st pressed Hd) as S1.
  assert (F : fst (__buttonHandler img down true st)
              = fst (__sendMove img st)).
  { unfold __buttonHandler. rewrite Hd.
    destruct (__sendMove img st); reflexivity. }
  destruct (__buttonHandler img down true st) as [st1 tr1].
  cbn [fst snd] in *. subst st1.
  rewrite run_cons. cbn [dispatch].
  pose proof (buttonHandler_sent img' up false (fst (__sendMove img st))
                released Hu) as S2.
  destruct (__buttonHandler img' up false (fst (__sendMove img st)))
    as [st2 tr2].
  cbn [run fst snd] in *. rewrite app_nil_r, sent_app, S1, S2.
  rewrite sendMove_ws, sendMove_current, sendMove_state.
  destruct (moved (__current_pos st) (__sent_pos st)) eqn:M.
  - cbn [set_sent_pos __sent_pos]. rewrite (moved_same _ Hc).
    destruct (__ws st); reflexivity.
  - rewrite M. destruct (__ws st); reflexivity.
Qed.

Lemma click_flushes_once_witness :
  button_name (button (motion 7 7)) = Some "left" /\
  sent (snd (run [(stream_800_600, onmousedown (motion 7 7));
                  (stream_800_600, onmouseup (motion 9 9))] online_moved))
  = [mouse_move (normalized stream_800_600 (at_pixel 5 5));
     mouse_button "left" true; mouse_button "left" false].
Proof.
  split; [reflexivity |].
  pose proof (click_flushes_once after_connecting stream_800_600
                stream_800_600 (motion 7 7) (motion 9 9) "left" "left"
                eq_refl eq_refl) as H.
  cbv zeta in H. fold online_moved in H.
  rewrite H, online_moved_state. reflexivity.
Defined.

(** X12: a handler that returns prevents the default action exactly once
    for the context menu, recognized buttons, wheel events that have the
    method and touches, and never otherwise (motion, hover, other buttons),
    with or without a socket; only the touch handlers stop the
    propagation. *)
Theorem default_is_suppressed :
  forall (img : StreamImage) (ev : event) (st : Mouse),
    match dispatch img ev st with
    | Some (_, tr) =>
        filter is_preventDefault tr
        = (if suppresses ev then [preventDefault] else []) /\
        filter is_stopPropagation tr
        = match ev with
          | ontouchstart _ | ontouchend _ => [stopPropagation]
          | _ => []
          end
    | None => True
    end.
Proof.
  intros img ev st. destruct st as [ws cur snt hov].
  destruct ev as [| | e | e | | e | e | e | e | | ws' |];
    unfold suppresses; handlers;
    try exact I;
    destruct ws as [w |]; try destruct hov; try destruct ws';
    split; reflexivity.
Qed.
